(** * JSON-Server-Builder: graph builder and policy-propagation traverser

    A shallow embedding of [build_graph] and [traverse_graph] from
    [script.py], and the properties of the route table they compute.

    Python values are the ones [json.load] produces.  JSON numbers are
    taken to be integers.  Dictionaries keep insertion order, so they are
    association lists; a key is looked up with Python's equality on
    hashable values, under which [True == 1] and [False == 0].

    The [while queue] loop need not end, so it is run with a bound on its
    iterations ([run], [traverse_graph]) or one iteration at a time
    ([step], [iter]).  The loop is first written on values, each queue
    entry holding its flags; a second version keeps the flag dictionaries
    in a store and the queue holds references, as in the source, and the
    two are shown to compute the same. *)

From Stdlib Require Import ZArith String Ascii List Bool Lia.
From stdpp Require Import base option list.
Import ListNotations.

Local Open Scope string_scope.
Local Open Scope list_scope.

(** ** Python values *)

#[local] Set Warnings "-register-all".

Inductive pyval : Type :=
| PNone
| PBool (b : bool)
| PInt (z : Z)
| PStr (s : string)
| PList (l : list pyval)
| PDict (d : list (string * pyval)).

(** A JSON object: string keys, which [json.load] leaves distinct; the
    lookup takes the first binding. *)
Definition sdict := list (string * pyval).

(** [bool(v)] *)
Definition truthy (v : pyval) : bool :=
  match v with
  | PNone => false
  | PBool b => b
  | PInt z => negb (Z.eqb z 0)
  | PStr s => negb (String.eqb s "")
  | PList l => match l with [] => false | _ => true end
  | PDict d => match d with [] => false | _ => true end
  end.

(** [a or b] *)
Definition py_or (a b : pyval) : pyval := if truthy a then a else b.

(** The exceptions the two functions can raise. *)
Inductive error := KeyError | TypeError | AttributeError.

Inductive result (A : Type) : Type :=
| Ok (a : A)
| Raise (e : error).
Arguments Ok {A} a.
Arguments Raise {A} e.

Definition bind {A B} (r : result A) (k : A -> result B) : result B :=
  match r with
  | Ok a => k a
  | Raise e => Raise e
  end.

Notation "'let*' x := r 'in' k" := (bind r (fun x => k))
  (at level 10, x name, r at level 100, k at level 200).

(** ** Hashing and dictionaries keyed by Python values *)

(** The equivalence class of a hashable value under [==]. *)
Inductive hkey := HNone | HInt (z : Z) | HStr (s : string).

Definition hkey_eqb (a b : hkey) : bool :=
  match a, b with
  | HNone, HNone => true
  | HInt x, HInt y => Z.eqb x y
  | HStr x, HStr y => String.eqb x y
  | _, _ => false
  end.

Definition hash_key (v : pyval) : option hkey :=
  match v with
  | PNone => Some HNone
  | PBool b => Some (HInt (if b then 1 else 0))
  | PInt z => Some (HInt z)
  | PStr s => Some (HStr s)
  | PList _ | PDict _ => None
  end.

Definition hashable (v : pyval) : bool :=
  match hash_key v with Some _ => true | None => false end.

Definition key_eqb (a b : pyval) : bool :=
  match hash_key a, hash_key b with
  | Some x, Some y => hkey_eqb x y
  | _, _ => false
  end.

Definition dict (V : Type) := list (pyval * V).

Section Dict.
Context {V : Type}.

(** The value bound to the first key equal to [k]. *)
Fixpoint dict_find (d : dict V) (k : pyval) : option V :=
  match d with
  | [] => None
  | (k', v) :: d' => if key_eqb k' k then Some v else dict_find d' k
  end.

(** [d[k]] *)
Definition getitem (d : dict V) (k : pyval) : result V :=
  if hashable k then
    match dict_find d k with
    | Some v => Ok v
    | None => Raise KeyError
    end
  else Raise TypeError.

(** [d.get(k, dflt)] *)
Definition get_default (d : dict V) (k : pyval) (dflt : V) : result V :=
  if hashable k then Ok (default dflt (dict_find d k)) else Raise TypeError.

(** [k in d] *)
Definition contains (d : dict V) (k : pyval) : result bool :=
  if hashable k then Ok (bool_decide (is_Some (dict_find d k)))
  else Raise TypeError.

(** [d[k] = v] for a hashable [k]: an existing key keeps its place and
    its key object, a new key goes last. *)
Fixpoint dict_set (d : dict V) (k : pyval) (v : V) : dict V :=
  match d with
  | [] => [(k, v)]
  | (k', v') :: d' =>
      if key_eqb k' k then (k', v) :: d' else (k', v') :: dict_set d' k v
  end.

(** [d.values()] *)
Definition values (d : dict V) : list V := map snd d.
End Dict.

(** ** JSON objects *)

Fixpoint sget (d : sdict) (k : string) : option pyval :=
  match d with
  | [] => None
  | (k', v) :: d' => if String.eqb k' k then Some v else sget d' k
  end.

(** [k in d] on a JSON object *)
Definition has_key (d : sdict) (k : string) : bool :=
  match sget d k with Some _ => true | None => false end.

(** [str.lower()] on ASCII letters; other bytes are left as they are. *)
Definition lower_ascii (c : ascii) : ascii :=
  let n := nat_of_ascii c in
  if (65 <=? n)%nat && (n <=? 90)%nat then ascii_of_nat (n + 32) else c.

Fixpoint lower (s : string) : string :=
  match s with
  | EmptyString => EmptyString
  | String c s' => String (lower_ascii c) (lower s')
  end.

(** ** Nodes *)

(** A node record is the JSON object of the configuration file. *)
Definition node := sdict.

(** [node["id"]] *)
Definition node_id (nd : node) : result pyval :=
  match sget nd "id" with
  | Some v => Ok v
  | None => Raise KeyError
  end.

(** ** [build_graph] *)

Abbreviation adjacency := (dict (list pyval)).

(** [children[k].append(tid)] on a [defaultdict(list)]: a missing key is
    first bound to the empty list. *)
Definition append_child (children : adjacency) (k tid : pyval) : adjacency :=
  dict_set children k (default [] (dict_find children k) ++ [tid]).

(** The edges a [target] value stands for: none when it is falsy, its
    elements when it is a list, itself otherwise. *)
Definition target_ids (target : pyval) : list pyval :=
  if truthy target then
    match target with
    | PList l => l
    | _ => [target]
    end
  else [].

(** One iteration of the [for node in nodes] loop. *)
Definition build_node (acc : dict node * adjacency) (nd : node)
  : result (dict node * adjacency) :=
  let '(node_map, children) := acc in
  let* id := node_id nd in
  if hashable id then
    let node_map := dict_set node_map id nd in
    let target := default PNone (sget nd "target") in
    Ok (node_map,
        fold_left (fun ch tid => append_child ch id tid) (target_ids target) children)
  else Raise TypeError.

Fixpoint build_loop (nodes : list node) (acc : dict node * adjacency)
  : result (dict node * adjacency) :=
  match nodes with
  | [] => Ok acc
  | nd :: rest => let* acc' := build_node acc nd in build_loop rest acc'
  end.

Definition build_graph (nodes : list node) : result (dict node * adjacency) :=
  build_loop nodes ([], []).

(** ** [traverse_graph] *)

(** The per-path middleware flags, a dictionary with the keys [auth] and
    [admin]; a node may set them to any JSON value. *)
Record flags := { auth : pyval; admin : pyval }.

Record global_flags := { cors : bool; logging : bool }.

(** A route record, the value stored under an endpoint. *)
Record route := {
  method : string;
  name : pyval;
  r_auth : pyval;
  r_admin : pyval
}.

(** [{"auth": False, "admin": False}] *)
Definition fresh_flags : flags := {| auth := PBool false; admin := PBool false |}.

(** The test of the [entry_nodes] comprehension.  [.get("type")] is only
    reached when [source] is present and not null, and fails on a
    [properties] value that is not an object. *)
Definition is_entry (nd : node) : result bool :=
  match sget nd "source" with
  | None | Some PNone => Ok true
  | Some _ =>
      match sget nd "properties" with
      | None => Ok false
      | Some (PDict p) =>
          Ok (match sget p "type" with
              | Some (PStr s) => String.eqb s "entry"
              | _ => false
              end)
      | Some _ => Raise AttributeError
      end
  end.

Fixpoint entry_nodes (nds : list node) : result (list node) :=
  match nds with
  | [] => Ok []
  | nd :: rest =>
      let* b := is_entry nd in
      let* es := entry_nodes rest in
      Ok (if b then nd :: es else es)
  end.

(** The [for node in entry_nodes] loop that fills the queue. *)
Fixpoint seed (es : list node) : result (list (pyval * flags)) :=
  match es with
  | [] => Ok []
  | nd :: rest =>
      let* id := node_id nd in
      let* q := seed rest in
      Ok ((id, fresh_flags) :: q)
  end.

(** [props = node.get("properties", {})] as the loop body uses it: the
    first use is [in], which a string or a list accepts and [None] or a
    number rejects; the second is [.get], which only an object has. *)
Definition node_props (nd : node) : result sdict :=
  match sget nd "properties" with
  | None => Ok []
  | Some (PDict p) => Ok p
  | Some (PStr _) | Some (PList _) => Raise AttributeError
  | Some _ => Raise TypeError
  end.

(** Lines 52-56: the global flags after a node with properties [props]. *)
Definition update_global (props : sdict) (g : global_flags) : global_flags :=
  let g := if has_key props "allowed_origins"
           then {| cors := true; logging := logging g |} else g in
  if truthy (default PNone (sget props "log_requests"))
  then {| cors := cors g; logging := true |} else g.

(** Lines 58-63: the node's own requirements replace the inherited ones. *)
Definition override (props : sdict) (f : flags) : flags :=
  let f := match sget props "auth_required" with
           | Some v => {| auth := v; admin := admin f |}
           | None => f
           end in
  match sget props "admin_required" with
  | Some v => {| auth := auth f; admin := v |}
  | None => f
  end.

(** What one visit of a route node contributes to the route table. *)
Record visit := {
  v_endpoint : pyval;
  v_method : string;
  v_name : pyval;
  v_auth : pyval;
  v_admin : pyval
}.

(** [endpoint in ["/login", "/signup", "/signout"]] *)
Definition is_public (endpoint : pyval) : bool :=
  match endpoint with
  | PStr s => String.eqb s "/login" || String.eqb s "/signup" || String.eqb s "/signout"
  | _ => false
  end.

(** Lines 72-78: [applied_flags], from the flags as they are after the
    override. *)
Definition applied_flags (endpoint : pyval) (props : sdict) (f : flags) : flags :=
  if is_public endpoint then {| auth := PBool false; admin := PBool false |}
  else {| auth := default (auth f) (sget props "auth_required");
          admin := default (admin f) (sget props "admin_required") |}.

(** Lines 66-78: the route a node defines, if it defines one. *)
Definition route_visit (nd : node) (props : sdict) (f : flags) : result (option visit) :=
  match sget props "endpoint", sget props "method" with
  | Some endpoint, Some m =>
      match m with
      | PStr s =>
          let a := applied_flags endpoint props f in
          Ok (Some {| v_endpoint := endpoint;
                      v_method := lower s;
                      v_name := default (PStr "Unnamed Route") (sget nd "name");
                      v_auth := auth a;
                      v_admin := admin a |})
      | _ => Raise AttributeError
      end
  | _, _ => Ok None
  end.

(** Lines 80-84 for a hashable endpoint: widen the record that is there,
    or insert a new one. *)
Definition merge (routes : dict route) (v : visit) : dict route :=
  match dict_find routes (v_endpoint v) with
  | Some r =>
      dict_set routes (v_endpoint v)
        {| method := method r; name := name r;
           r_auth := py_or (r_auth r) (v_auth v);
           r_admin := py_or (r_admin r) (v_admin v) |}
  | None =>
      dict_set routes (v_endpoint v)
        {| method := v_method v; name := v_name v;
           r_auth := v_auth v; r_admin := v_admin v |}
  end.

(** Lines 80-84: [endpoint in routes] raises on an unhashable endpoint. *)
Definition record_visit (routes : dict route) (ov : option visit) : result (dict route) :=
  match ov with
  | None => Ok routes
  | Some v => if hashable (v_endpoint v) then Ok (merge routes v) else Raise TypeError
  end.

(** The state of the loop.  The node index and the adjacency are part of
    it, so that what the loop does to them is visible. *)
Record tstate := {
  node_map : dict node;
  children : adjacency;
  routes : dict route;
  globals : global_flags;
  queue : list (pyval * flags)
}.

(** One iteration of [while queue], on the entry [(cur_id, f)] taken off
    the front of the queue and the rest [q] of the queue. *)
Definition visit_node (st : tstate) (cur_id : pyval) (f : flags)
    (q : list (pyval * flags)) : result tstate :=
  let* nd := getitem (node_map st) cur_id in
  let* props := node_props nd in
  let g := update_global props (globals st) in
  let f := override props f in
  let* ov := route_visit nd props f in
  let* routes' := record_visit (routes st) ov in
  let* kids := get_default (children st) cur_id [] in
  Ok {| node_map := node_map st;
        children := children st;
        routes := routes';
        globals := g;
        queue := q ++ map (fun child_id => (child_id, f)) kids |}.

(** The outcome of running the loop with a bound on its iterations. *)
Inductive outcome (A : Type) : Type :=
| Done (a : A)
| Failed (e : error)
| OutOfFuel.
Arguments Done {A} a.
Arguments Failed {A} e.
Arguments OutOfFuel {A}.

Fixpoint run (fuel : nat) (st : tstate) : outcome tstate :=
  match queue st with
  | [] => Done st
  | (cur_id, f) :: q =>
      match fuel with
      | O => OutOfFuel
      | S fuel' =>
          match visit_node st cur_id f q with
          | Ok st' => run fuel' st'
          | Raise e => Failed e
          end
      end
  end.

(** The state before the loop: lines 35-45. *)
Definition init (nm : dict node) (ch : adjacency) : result tstate :=
  let* es := entry_nodes (values nm) in
  let* q := seed es in
  Ok {| node_map := nm; children := ch; routes := [];
        globals := {| cors := false; logging := false |};
        queue := q |}.

Definition traverse_graph (fuel : nat) (nm : dict node) (ch : adjacency)
  : outcome (dict route * global_flags) :=
  match init nm ch with
  | Raise e => Failed e
  | Ok st =>
      match run fuel st with
      | Done st' => Done (routes st', globals st')
      | Failed e => Failed e
      | OutOfFuel => OutOfFuel
      end
  end.

(** The loop one iteration at a time, for statements about every
    intermediate state: [iter n st] is the state after [n] iterations, or
    after the queue ran empty. *)
Definition step (st : tstate) : result tstate :=
  match queue st with
  | [] => Ok st
  | (cur_id, f) :: q => visit_node st cur_id f q
  end.

Fixpoint iter (n : nat) (st : tstate) : result tstate :=
  match n with
  | O => Ok st
  | S n' => let* st' := step st in iter n' st'
  end.

(** The route visit the next iteration performs, if it performs one. *)
Definition next_visit (st : tstate) : option visit :=
  match queue st with
  | [] => None
  | (cur_id, f) :: _ =>
      match getitem (node_map st) cur_id with
      | Ok nd =>
          match node_props nd with
          | Ok props =>
              match route_visit nd props (override props f) with
              | Ok ov => ov
              | Raise _ => None
              end
          | Raise _ => None
          end
      | Raise _ => None
      end
  end.

(** The route visits of the first [n] iterations, in order. *)
Fixpoint route_visits (n : nat) (st : tstate) : list visit :=
  match n with
  | O => []
  | S n' =>
      match step st with
      | Ok st' => option_list (next_visit st) ++ route_visits n' st'
      | Raise _ => []
      end
  end.

(** The queue entries the first [n] iterations take off the queue. *)
Fixpoint dequeued (n : nat) (st : tstate) : list (pyval * flags) :=
  match n with
  | O => []
  | S n' =>
      match step st with
      | Ok st' => option_list (head (queue st)) ++ dequeued n' st'
      | Raise _ => []
      end
  end.

(** * Properties *)

(** ** Keys and dictionaries *)

Lemma hkey_eqb_eq a b : hkey_eqb a b = true <-> a = b.
Proof.
  destruct a, b; simpl; try (split; [discriminate | congruence]); try tauto.
  - rewrite Z.eqb_eq. split; congruence.
  - rewrite String.eqb_eq. split; congruence.
Qed.

Lemma key_eqb_spec a b :
  key_eqb a b = true <-> exists h, hash_key a = Some h /\ hash_key b = Some h.
Proof.
  unfold key_eqb. destruct (hash_key a) as [x|], (hash_key b) as [y|].
  - rewrite hkey_eqb_eq. split.
    + intros ->. eauto.
    + intros (h & Ha & Hb). congruence.
  - split; [discriminate | intros (h & _ & ?); discriminate].
  - split; [discriminate | intros (h & ? & _); discriminate].
  - split; [discriminate | intros (h & ? & _); discriminate].
Qed.

Lemma key_eqb_refl k : hashable k = true -> key_eqb k k = true.
Proof.
  unfold hashable. intros H. apply key_eqb_spec.
  destruct (hash_key k) as [h|]; [eauto | discriminate].
Qed.

Lemma key_eqb_sym a b : key_eqb a b = key_eqb b a.
Proof.
  apply eq_true_iff_eq. rewrite !key_eqb_spec.
  split; intros (h & ? & ?); eauto.
Qed.

Lemma key_eqb_trans a b c :
  key_eqb a b = true -> key_eqb b c = true -> key_eqb a c = true.
Proof.
  rewrite !key_eqb_spec. intros (h & Ha & Hb) (h' & Hb' & Hc).
  exists h. split; congruence.
Qed.

Lemma key_eqb_hashable_l a b : key_eqb a b = true -> hashable a = true.
Proof.
  rewrite key_eqb_spec. intros (h & Ha & _). unfold hashable. now rewrite Ha.
Qed.

(** Equal keys are looked up alike. *)
Lemma key_eqb_congr a b c : key_eqb a b = true -> key_eqb a c = key_eqb b c.
Proof.
  intros Hab. apply eq_true_iff_eq. split; intros H.
  - apply key_eqb_trans with a; [now rewrite key_eqb_sym | exact H].
  - now apply key_eqb_trans with b.
Qed.

Lemma unhashable_find {V} (d : dict V) k : hashable k = false -> dict_find d k = None.
Proof.
  intros Hk. induction d as [|[k' v] d IH]; simpl; [reflexivity|].
  destruct (key_eqb k' k) eqn:E; [|exact IH].
  rewrite key_eqb_sym in E. apply key_eqb_hashable_l in E. congruence.
Qed.

Lemma dict_find_set {V} (d : dict V) k v k' :
  hashable k = true ->
  dict_find (dict_set d k v) k' = if key_eqb k k' then Some v else dict_find d k'.
Proof.
  intros Hk. induction d as [|[k0 v0] d IH]; simpl.
  - reflexivity.
  - destruct (key_eqb k0 k) eqn:E0; simpl.
    + rewrite (key_eqb_congr _ _ k' E0). now destruct (key_eqb k k').
    + rewrite IH. destruct (key_eqb k k') eqn:E1, (key_eqb k0 k') eqn:E2; try reflexivity.
      rewrite key_eqb_sym in E1.
      rewrite (key_eqb_trans _ _ _ E2 E1) in E0. discriminate.
Qed.

Lemma find_app {V} (d1 d2 : dict V) k :
  dict_find (d1 ++ d2) k =
  match dict_find d1 k with Some v => Some v | None => dict_find d2 k end.
Proof.
  induction d1 as [|[k0 v0] d1 IH]; simpl; [reflexivity|].
  now destruct (key_eqb k0 k).
Qed.

Lemma dict_find_congr {V} (d : dict V) a b :
  key_eqb a b = true -> dict_find d a = dict_find d b.
Proof.
  intros Hab. induction d as [|[k0 v0] d IH]; simpl; [reflexivity|].
  rewrite IH. rewrite (key_eqb_sym k0 a), (key_eqb_sym k0 b).
  now rewrite (key_eqb_congr _ _ k0 Hab).
Qed.

(** ** The graph builder *)

Section BuildGraph.

(** The node carries the id [k]. *)
Definition has_id (k : pyval) (nd : node) : bool :=
  match sget nd "id" with
  | Some id => key_eqb id k
  | None => false
  end.

(** The node has an id that can be a dictionary key. *)
Definition well_keyed (nd : node) : bool :=
  match sget nd "id" with
  | Some id => hashable id
  | None => false
  end.

(** The edges of a node, from its [target] field. *)
Definition node_targets (nd : node) : list pyval :=
  target_ids (default PNone (sget nd "target")).

(** An adjacency list after [es] was appended to it. *)
Definition extend (o : option (list pyval)) (es : list pyval) : option (list pyval) :=
  match es with
  | [] => o
  | _ => Some (default [] o ++ es)
  end.

Lemma extend_extend o a b : extend (extend o a) b = extend o (a ++ b).
Proof.
  destruct a as [|x a]; simpl; [reflexivity|].
  destruct b as [|y b]; simpl.
  - now rewrite app_nil_r.
  - f_equal. now rewrite <- app_assoc.
Qed.

Lemma append_child_find ch id tid k :
  hashable id = true ->
  dict_find (append_child ch id tid) k =
  if key_eqb id k then extend (dict_find ch k) [tid] else dict_find ch k.
Proof.
  intros Hid. unfold append_child. rewrite dict_find_set by exact Hid.
  destruct (key_eqb id k) eqn:E; [|reflexivity].
  now rewrite (dict_find_congr ch _ _ E).
Qed.

Lemma append_children_find l : forall ch id k,
  hashable id = true ->
  dict_find (fold_left (fun ch tid => append_child ch id tid) l ch) k =
  if key_eqb id k then extend (dict_find ch k) l else dict_find ch k.
Proof.
  induction l as [|t l IH]; intros ch id k Hid; simpl fold_left.
  - now destruct (key_eqb id k).
  - rewrite IH by exact Hid. rewrite append_child_find by exact Hid.
    destruct (key_eqb id k); [|reflexivity].
    now rewrite extend_extend.
Qed.

Lemma last_cons_cases {A} (x : A) l :
  last (x :: l) = match last l with Some y => Some y | None => Some x end.
Proof. destruct l as [|y l]; [reflexivity|]. rewrite last_cons_cons.
  destruct (last (y :: l)) eqn:E; [reflexivity|].
  apply last_None in E. discriminate.
Qed.

Lemma build_loop_spec nodes : forall nm0 ch0,
  forallb well_keyed nodes = true ->
  exists nm ch,
    build_loop nodes (nm0, ch0) = Ok (nm, ch) /\
    (forall k, dict_find nm k =
               match last (List.filter (has_id k) nodes) with
               | Some nd => Some nd
               | None => dict_find nm0 k
               end) /\
    (forall k, dict_find ch k =
               extend (dict_find ch0 k)
                 (concat (map node_targets (List.filter (has_id k) nodes)))).
Proof.
  induction nodes as [|nd rest IH]; intros nm0 ch0 Hwk.
  - exists nm0, ch0. simpl. auto.
  - simpl in Hwk. apply andb_true_iff in Hwk as [Hnd Hrest].
    unfold well_keyed in Hnd.
    destruct (sget nd "id") as [id|] eqn:Eid; [|discriminate].
    simpl build_loop. unfold build_node, node_id. rewrite Eid. simpl bind.
    rewrite Hnd. simpl bind.
    edestruct IH as (nm & ch & Hrun & Hnm & Hch); [exact Hrest|].
    exists nm, ch. split; [exact Hrun|]. split; intros k.
    + assert (Hid : has_id k nd = key_eqb id k) by (unfold has_id; now rewrite Eid).
      rewrite Hnm. rewrite dict_find_set by exact Hnd.
      simpl List.filter. rewrite Hid.
      destruct (key_eqb id k); [|reflexivity].
      rewrite last_cons_cases. now destruct (last _).
    + assert (Hid : has_id k nd = key_eqb id k) by (unfold has_id; now rewrite Eid).
      rewrite Hch. rewrite append_children_find by exact Hnd.
      simpl List.filter. rewrite Hid.
      destruct (key_eqb id k); [|reflexivity].
      simpl map. simpl concat. now rewrite extend_extend.
Qed.

(** The three cases of a [target] value. *)
Lemma target_ids_cases target :
  (truthy target = false -> target_ids target = []) /\
  (forall l, target = PList l -> target_ids target = l) /\
  (truthy target = true -> (forall l, target <> PList l) -> target_ids target = [target]).
Proof.
  unfold target_ids. repeat split.
  - now intros ->.
  - intros l ->. now destruct l.
  - intros -> Hl. destruct target; try reflexivity. now destruct (Hl l).
Qed.

End BuildGraph.

(** C8.  On a list of nodes that each carry a hashable [id],
    [build_graph] returns a node index and an adjacency.  The index binds
    every id to the last node of the list that carries it.  The adjacency
    binds an id to the targets of the nodes that carry it, node after node
    in list order and nothing removed, and has no binding for an id
    without targets.  A node's targets are the elements of [target] when
    it is a list, [target] itself when it is another truthy value, and
    none when [target] is absent or falsy. *)
Theorem build_graph_index_and_adjacency (nodes : list node) :
  forallb well_keyed nodes = true ->
  exists nm ch,
    build_graph nodes = Ok (nm, ch) /\
    (forall k, dict_find nm k = last (List.filter (has_id k) nodes)) /\
    (forall k, dict_find ch k =
               match concat (map node_targets (List.filter (has_id k) nodes)) with
               | [] => None
               | es => Some es
               end) /\
    (forall nd, sget nd "target" = None -> node_targets nd = []) /\
    (forall nd t, sget nd "target" = Some t -> truthy t = false -> node_targets nd = []) /\
    (forall nd l, sget nd "target" = Some (PList l) -> node_targets nd = l) /\
    (forall nd t, sget nd "target" = Some t -> truthy t = true ->
                  (forall l, t <> PList l) -> node_targets nd = [t]).
Proof.
  intros Hwk.
  destruct (build_loop_spec nodes [] [] Hwk) as (nm & ch & Hrun & Hnm & Hch).
  exists nm, ch. split; [exact Hrun|]. split; [|split].
  - intros k. rewrite Hnm. simpl. now destruct (last _).
  - intros k. rewrite Hch. simpl. now destruct (concat _).
  - unfold node_targets. repeat split.
    + intros nd ->. reflexivity.
    + intros nd t -> Ht. simpl. now apply (proj1 (target_ids_cases t)).
    + intros nd l ->. simpl. now apply (proj1 (proj2 (target_ids_cases (PList l)))).
    + intros nd t -> Ht Hl. simpl. now apply (proj2 (proj2 (target_ids_cases t))).
Qed.

Definition sample_nodes : list node :=
  [ [("id", PInt 1); ("target", PList [PInt 2; PInt 3; PInt 2])];
    [("id", PInt 2); ("source", PInt 1); ("target", PStr "x")];
    [("id", PBool true); ("source", PInt 1); ("target", PInt 0)];
    [("id", PInt 3); ("source", PInt 1)];
    [("id", PInt 1); ("source", PInt 3); ("target", PInt 4)] ].

Lemma build_graph_index_and_adjacency_witness :
  forallb well_keyed sample_nodes = true /\
  exists nm ch,
    build_graph sample_nodes = Ok (nm, ch) /\
    (forall k, dict_find nm k = last (List.filter (has_id k) sample_nodes)) /\
    (forall k, dict_find ch k =
               match concat (map node_targets (List.filter (has_id k) sample_nodes)) with
               | [] => None
               | es => Some es
               end) /\
    (forall nd, sget nd "target" = None -> node_targets nd = []) /\
    (forall nd t, sget nd "target" = Some t -> truthy t = false -> node_targets nd = []) /\
    (forall nd l, sget nd "target" = Some (PList l) -> node_targets nd = l) /\
    (forall nd t, sget nd "target" = Some t -> truthy t = true ->
                  (forall l, t <> PList l) -> node_targets nd = [t]).
Proof.
  split; [reflexivity|].
  apply (build_graph_index_and_adjacency sample_nodes). reflexivity.
Defined.


(** ** The loop: inversion and iteration *)

(** Case analysis on the first computation of a chain of binds in [H]. *)
Ltac bind_case H x E :=
  match type of H with
  | context [bind ?r _] =>
      destruct r as [x|] eqn:E; simpl bind in H; [|discriminate H]
  end.

Section Loop.

(** What a successful iteration did. *)
Lemma visit_node_inv st cur_id f q st' :
  visit_node st cur_id f q = Ok st' ->
  exists nd props ov kids,
    getitem (node_map st) cur_id = Ok nd /\
    node_props nd = Ok props /\
    route_visit nd props (override props f) = Ok ov /\
    record_visit (routes st) ov = Ok (routes st') /\
    get_default (children st) cur_id [] = Ok kids /\
    node_map st' = node_map st /\
    children st' = children st /\
    globals st' = update_global props (globals st) /\
    queue st' = q ++ map (fun child_id => (child_id, override props f)) kids.
Proof.
  unfold visit_node. intros H.
  bind_case H nd E1. bind_case H props E2. bind_case H ov E3.
  bind_case H rt E4. bind_case H kids E5.
  injection H as <-. simpl.
  exists nd, props, ov, kids. repeat split; assumption.
Qed.

Lemma step_done st : queue st = [] -> step st = Ok st.
Proof. unfold step. now intros ->. Qed.

Lemma iter_done n : forall st, queue st = [] -> iter n st = Ok st.
Proof.
  induction n as [|n IH]; intros st Hq; simpl; [reflexivity|].
  rewrite step_done by exact Hq. simpl. now apply IH.
Qed.

Lemma iter_add n : forall m st,
  iter (n + m) st = let* st' := iter n st in iter m st'.
Proof.
  induction n as [|n IH]; intros m st; simpl; [reflexivity|].
  destruct (step st) as [st1|e]; simpl; [apply IH | reflexivity].
Qed.

(** A run that is still alive after [m] iterations was alive after any
    smaller number of them. *)
Lemma iter_prefix n m st st' :
  n <= m -> iter m st = Ok st' ->
  exists st1, iter n st = Ok st1 /\ iter (m - n) st1 = Ok st'.
Proof.
  intros Hle Hm. replace m with (n + (m - n)) in Hm by lia.
  rewrite iter_add in Hm.
  destruct (iter n st) as [st1|e]; [|discriminate].
  exists st1. split; [reflexivity | exact Hm].
Qed.

(** The bounded loop and the iterated step agree. *)
Lemma run_iter fuel : forall st st',
  run fuel st = Done st' -> iter fuel st = Ok st' /\ queue st' = [].
Proof.
  induction fuel as [|fuel IH]; intros st st' H.
  - simpl in H. destruct (queue st) as [|[c f] q] eqn:Eq; [|discriminate].
    injection H as <-. split; [reflexivity | exact Eq].
  - simpl in H. destruct (queue st) as [|[c f] q] eqn:Eq.
    + injection H as <-. split; [|exact Eq].
      now apply iter_done.
    + destruct (visit_node st c f q) as [st1|e] eqn:Ev; [|discriminate].
      apply IH in H as [H1 H2]. split; [|exact H2].
      simpl. unfold step. rewrite Eq, Ev. exact H1.
Qed.

Lemma iter_run n : forall st st',
  iter n st = Ok st' -> queue st' = [] -> run n st = Done st'.
Proof.
  induction n as [|n IH]; intros st st' H Hq.
  - simpl in H. injection H as <-. simpl. now rewrite Hq.
  - simpl in H. unfold step in H. simpl.
    destruct (queue st) as [|[c f] q] eqn:Eq.
    + simpl in H. rewrite iter_done in H by exact Eq. now injection H as <-.
    + destruct (visit_node st c f q) as [st1|e]; [|discriminate].
      simpl in H. now apply IH.
Qed.

(** More fuel does not change a result. *)
Lemma run_fuel_mono fuel st st' k :
  run fuel st = Done st' -> run (fuel + k) st = Done st'.
Proof.
  intros H. apply run_iter in H as [H Hq].
  apply iter_run; [|exact Hq].
  rewrite iter_add, H. simpl. now apply iter_done.
Qed.

Lemma run_fuel_irrelevant f1 f2 st st1 st2 :
  run f1 st = Done st1 -> run f2 st = Done st2 -> st1 = st2.
Proof.
  intros H1 H2.
  apply (run_fuel_mono _ _ _ f2) in H1. apply (run_fuel_mono _ _ _ f1) in H2.
  rewrite (Nat.add_comm f2 f1) in H2. congruence.
Qed.

(** What [traverse_graph] returns is the state of a drained loop. *)
Lemma traverse_graph_inv fuel nm ch rt g :
  traverse_graph fuel nm ch = Done (rt, g) ->
  exists st0 st,
    init nm ch = Ok st0 /\ iter fuel st0 = Ok st /\ queue st = [] /\
    routes st = rt /\ globals st = g.
Proof.
  unfold traverse_graph. intros H.
  destruct (init nm ch) as [st0|] eqn:E0; [|discriminate].
  destruct (run fuel st0) as [st| |] eqn:Er; try discriminate.
  injection H as <- <-. apply run_iter in Er as [Hi Hq].
  exists st0, st. auto.
Qed.

Lemma init_inv nm ch st0 :
  init nm ch = Ok st0 ->
  node_map st0 = nm /\ children st0 = ch /\ routes st0 = [] /\
  globals st0 = {| cors := false; logging := false |} /\
  exists es, entry_nodes (values nm) = Ok es /\ seed es = Ok (queue st0).
Proof.
  unfold init. intros H.
  bind_case H es E1. bind_case H q E2.
  injection H as <-. simpl. repeat split. eauto.
Qed.

End Loop.

(** ** Applied flags *)

Section Applied.

(** The applied flags in the words of the specification: the node's own
    property where it has one, the flag the path delivered otherwise. *)
Definition applied_by_fallback (props : sdict) (inherited : flags) : flags :=
  {| auth := match sget props "auth_required" with
             | Some v => v
             | None => auth inherited
             end;
     admin := match sget props "admin_required" with
              | Some v => v
              | None => admin inherited
              end |}.

Lemma override_fallback props inherited :
  override props inherited = applied_by_fallback props inherited.
Proof.
  unfold override, applied_by_fallback. destruct inherited as [a b].
  destruct (sget props "auth_required"), (sget props "admin_required"); reflexivity.
Qed.

Lemma applied_flags_after_override endpoint props inherited :
  is_public endpoint = false ->
  applied_flags endpoint props (override props inherited) = override props inherited.
Proof.
  intros Hp. unfold applied_flags. rewrite Hp. unfold override.
  destruct inherited as [a b].
  destruct (sget props "auth_required"), (sget props "admin_required"); reflexivity.
Qed.

Lemma route_visit_inv nd props f v :
  route_visit nd props f = Ok (Some v) ->
  exists endpoint s,
    sget props "endpoint" = Some endpoint /\
    sget props "method" = Some (PStr s) /\
    v = {| v_endpoint := endpoint;
           v_method := lower s;
           v_name := default (PStr "Unnamed Route") (sget nd "name");
           v_auth := auth (applied_flags endpoint props f);
           v_admin := admin (applied_flags endpoint props f) |}.
Proof.
  unfold route_visit. intros H.
  destruct (sget props "endpoint") as [ep|]; [|discriminate].
  destruct (sget props "method") as [[| | |s| |]|]; try discriminate.
  injection H as <-. eauto.
Qed.

End Applied.

(** C7.  At a route node whose endpoint is not one of the three public
    ones, the applied flags the code computes from the flags as they are
    after the local override are those flags, and they are what the
    fallback rule gives on the flags the path delivered; so the visit
    carries the same auth and admin under either reading. *)
Theorem applied_flags_fallback_equiv (nd : node) (props : sdict) (inherited : flags) (v : visit) :
  route_visit nd props (override props inherited) = Ok (Some v) ->
  is_public (v_endpoint v) = false ->
  applied_flags (v_endpoint v) props (override props inherited)
    = applied_by_fallback props inherited /\
  applied_by_fallback props inherited = override props inherited /\
  v_auth v = auth (applied_by_fallback props inherited) /\
  v_admin v = admin (applied_by_fallback props inherited) /\
  v_auth v = auth (override props inherited) /\
  v_admin v = admin (override props inherited).
Proof.
  intros Hv Hp.
  destruct (route_visit_inv _ _ _ _ Hv) as (ep & s & _ & _ & ->).
  cbn [v_endpoint v_auth v_admin] in *.
  rewrite (applied_flags_after_override _ _ _ Hp).
  rewrite <- override_fallback. repeat split; reflexivity.
Qed.

Definition admin_page : node :=
  [("id", PInt 7); ("source", PInt 1); ("name", PStr "Admin");
   ("properties", PDict [("endpoint", PStr "/admin"); ("method", PStr "GET");
                         ("admin_required", PBool true)])].

Definition admin_page_props : sdict :=
  [("endpoint", PStr "/admin"); ("method", PStr "GET"); ("admin_required", PBool true)].

Lemma applied_flags_fallback_equiv_witness :
  let inherited := {| auth := PBool true; admin := PBool false |} in
  let v := {| v_endpoint := PStr "/admin"; v_method := "get"; v_name := PStr "Admin";
              v_auth := PBool true; v_admin := PBool true |} in
  v_auth v = auth (applied_by_fallback admin_page_props inherited) /\
  v_admin v = admin (override admin_page_props inherited).
Proof.
  intros inherited v.
  pose proof (applied_flags_fallback_equiv admin_page admin_page_props inherited v
                eq_refl eq_refl) as H.
  split; [apply H | apply H].
Defined.

(** ** Global flags *)

Section Globals.

Lemma update_global_eq props g :
  cors (update_global props g) = cors g || has_key props "allowed_origins" /\
  logging (update_global props g)
    = logging g || truthy (default PNone (sget props "log_requests")).
Proof.
  unfold update_global.
  destruct (has_key props "allowed_origins"),
           (truthy (default PNone (sget props "log_requests"))); simpl;
    rewrite ?orb_true_r, ?orb_false_r; auto.
Qed.

Lemma step_globals st st' :
  step st = Ok st' ->
  (cors (globals st) = true -> cors (globals st') = true) /\
  (logging (globals st) = true -> logging (globals st') = true).
Proof.
  unfold step. destruct (queue st) as [|[c f] q].
  - intros [= <-]. auto.
  - intros H. apply visit_node_inv in H
      as (nd & props & ov & kids & _ & _ & _ & _ & _ & _ & _ & Hg & _).
    rewrite Hg. destruct (update_global_eq props (globals st)) as [-> ->].
    split; intros ->; reflexivity.
Qed.

Lemma iter_globals n : forall st st',
  iter n st = Ok st' ->
  (cors (globals st) = true -> cors (globals st') = true) /\
  (logging (globals st) = true -> logging (globals st') = true).
Proof.
  induction n as [|n IH]; intros st st' H; simpl in H.
  - injection H as <-. auto.
  - bind_case H st1 E. apply step_globals in E. apply IH in H. tauto.
Qed.

End Globals.

(** C6.  Both global flags are false before the loop.  An iteration on a
    node with properties [props] leaves [cors] as it was or-ed with
    whether [props] has the key [allowed_origins], and [logging] as it was
    or-ed with the truth value of [log_requests].  A flag that is true
    after some number of iterations is true after any larger number, and
    in what [traverse_graph] returns. *)
Theorem global_flags_monotone (nm : dict node) (ch : adjacency) (st0 : tstate) :
  init nm ch = Ok st0 ->
  globals st0 = {| cors := false; logging := false |} /\
  (forall st cur_id f q nd props st',
      queue st = (cur_id, f) :: q ->
      getitem (node_map st) cur_id = Ok nd ->
      node_props nd = Ok props ->
      step st = Ok st' ->
      cors (globals st') = cors (globals st) || has_key props "allowed_origins" /\
      logging (globals st')
        = logging (globals st) || truthy (default PNone (sget props "log_requests"))) /\
  (forall n m st st',
      n <= m -> iter n st0 = Ok st -> iter m st0 = Ok st' ->
      (cors (globals st) = true -> cors (globals st') = true) /\
      (logging (globals st) = true -> logging (globals st') = true)) /\
  (forall fuel rt g n st,
      traverse_graph fuel nm ch = Done (rt, g) -> iter n st0 = Ok st ->
      (cors (globals st) = true -> cors g = true) /\
      (logging (globals st) = true -> logging g = true)).
Proof.
  intros Hinit. split; [apply (init_inv _ _ _ Hinit)|]. split; [|split].
  - intros st cur_id f q nd props st' Hq Hnd Hprops Hstep.
    unfold step in Hstep. rewrite Hq in Hstep.
    apply visit_node_inv in Hstep
      as (nd' & props' & ov & kids & Hnd' & Hprops' & _ & _ & _ & _ & _ & Hg & _).
    rewrite Hnd in Hnd'. injection Hnd' as <-.
    rewrite Hprops in Hprops'. injection Hprops' as <-.
    rewrite Hg. apply update_global_eq.
  - intros n m st st' Hle Hn Hm.
    destruct (iter_prefix n m st0 st' Hle Hm) as (st1 & Hn' & Hrest).
    rewrite Hn in Hn'. injection Hn' as <-.
    now apply iter_globals in Hrest.
  - intros fuel rt g n st Hrun Hn.
    apply traverse_graph_inv in Hrun as (st0' & stf & Hinit' & Hf & Hq & _ & <-).
    rewrite Hinit in Hinit'. injection Hinit' as <-.
    destruct (Nat.le_ge_cases n fuel) as [Hle|Hge].
    + destruct (iter_prefix n fuel st0 stf Hle Hf) as (st1 & Hn' & Hrest).
      rewrite Hn in Hn'. injection Hn' as <-.
      now apply iter_globals in Hrest.
    + destruct (iter_prefix fuel n st0 st Hge Hn) as (st1 & Hf' & Hrest).
      rewrite Hf in Hf'. injection Hf' as <-.
      rewrite iter_done in Hrest by exact Hq. injection Hrest as <-. auto.
Qed.

(** A small configuration used to exercise the statements: an entry node
    that requires authentication and allows cross-origin requests, two
    branches under it, one of which lifts the requirement and logs, a
    node both branches lead to, and a login route below it. *)
Definition demo_nodes : list node :=
  [ [("id", PInt 1); ("source", PNone); ("target", PList [PInt 2; PInt 3]);
     ("properties", PDict [("type", PStr "entry"); ("allowed_origins", PList [PStr "*"]);
                           ("auth_required", PBool true)])];
    [("id", PInt 2); ("source", PInt 1); ("target", PInt 4); ("name", PStr "User");
     ("properties", PDict [("endpoint", PStr "/user"); ("method", PStr "GET")])];
    [("id", PInt 3); ("source", PInt 1); ("target", PList [PInt 4]);
     ("properties", PDict [("auth_required", PBool false); ("log_requests", PBool true);
                           ("endpoint", PStr "/home"); ("method", PStr "Get")])];
    [("id", PInt 4); ("source", PInt 2); ("target", PInt 5); ("name", PStr "News");
     ("properties", PDict [("endpoint", PStr "/news"); ("method", PStr "POST")])];
    [("id", PInt 5); ("source", PInt 4); ("name", PStr "Login");
     ("properties", PDict [("endpoint", PStr "/login"); ("method", PStr "POST");
                           ("admin_required", PBool true)])] ].

Definition demo_node_map : dict node :=
  Eval vm_compute in
    match build_graph demo_nodes with Ok (nm, _) => nm | Raise _ => [] end.

Definition demo_children : adjacency :=
  Eval vm_compute in
    match build_graph demo_nodes with Ok (_, ch) => ch | Raise _ => [] end.

Definition demo_init : tstate :=
  Eval vm_compute in
    match init demo_node_map demo_children with
    | Ok st => st
    | Raise _ => {| node_map := []; children := []; routes := [];
                    globals := {| cors := false; logging := false |}; queue := [] |}
    end.

Example demo_build : build_graph demo_nodes = Ok (demo_node_map, demo_children).
Proof. reflexivity. Qed.

Definition demo_route_table : dict route :=
  [ (PStr "/user", {| method := "get"; name := PStr "User";
                      r_auth := PBool true; r_admin := PBool false |});
    (PStr "/home", {| method := "get"; name := PStr "Unnamed Route";
                      r_auth := PBool false; r_admin := PBool false |});
    (PStr "/news", {| method := "post"; name := PStr "News";
                      r_auth := PBool true; r_admin := PBool false |});
    (PStr "/login", {| method := "post"; name := PStr "Login";
                       r_auth := PBool false; r_admin := PBool false |}) ].

Definition demo_globals : global_flags := {| cors := true; logging := true |}.

Example demo_routes :
  traverse_graph 10 demo_node_map demo_children = Done (demo_route_table, demo_globals).
Proof. vm_compute. reflexivity. Qed.

(** The state after the entry node was visited, and after the queue ran
    empty. *)
Definition demo_after_entry : tstate :=
  Eval vm_compute in
    match iter 1 demo_init with Ok st => st | Raise _ => demo_init end.

Definition demo_final : tstate :=
  Eval vm_compute in
    match iter 7 demo_init with Ok st => st | Raise _ => demo_init end.

Lemma global_flags_monotone_witness :
  globals demo_init = {| cors := false; logging := false |} /\
  cors (globals demo_after_entry) = true /\
  cors (globals demo_final) = true.
Proof.
  destruct (global_flags_monotone demo_node_map demo_children demo_init)
    as (H0 & _ & Hmono & _).
  { vm_compute. reflexivity. }
  split; [exact H0|]. split; [reflexivity|].
  destruct (Hmono 1 7 demo_after_entry demo_final) as [Hcors _].
  - lia.
  - vm_compute. reflexivity.
  - vm_compute. reflexivity.
  - apply Hcors. reflexivity.
Defined.

(** ** Public endpoints *)

Section Public.

(** Every record stored under a public endpoint is open. *)
Definition public_open (rs : dict route) : Prop :=
  forall k r, In (k, r) rs -> is_public k = true ->
              r_auth r = PBool false /\ r_admin r = PBool false.

Lemma is_public_key_eqb k k' :
  key_eqb k k' = true -> is_public k = true -> k' = k.
Proof.
  intros Hk Hp. destruct k; try discriminate.
  apply key_eqb_spec in Hk as (h & Hh & Hh').
  destruct k'; simpl in *; try destruct b; congruence.
Qed.

Lemma dict_find_In {V} (d : dict V) k v :
  dict_find d k = Some v -> exists k', In (k', v) d /\ key_eqb k' k = true.
Proof.
  induction d as [|[k0 v0] d IH]; simpl; [discriminate|].
  destruct (key_eqb k0 k) eqn:E.
  - intros [= ->]. exists k0. auto.
  - intros H. destruct (IH H) as (k' & Hin & Hk). exists k'. auto.
Qed.

Lemma In_dict_set {V} (d : dict V) k v k' v' :
  In (k', v') (dict_set d k v) ->
  In (k', v') d \/ (v' = v /\ (k' = k \/ key_eqb k' k = true)).
Proof.
  induction d as [|[k0 v0] d IH]; simpl.
  - intros [[= <- <-]|[]]. auto.
  - destruct (key_eqb k0 k) eqn:E; simpl.
    + intros [[= <- <-]|H]; auto.
    + intros [H|H]; auto. destruct (IH H); auto.
Qed.

Lemma applied_flags_public endpoint props f :
  is_public endpoint = true ->
  applied_flags endpoint props f = {| auth := PBool false; admin := PBool false |}.
Proof. unfold applied_flags. now intros ->. Qed.

(** A visit keeps the table open, when it applies open flags to a
    public endpoint. *)
Lemma merge_public_open rs v :
  public_open rs ->
  (is_public (v_endpoint v) = true ->
   v_auth v = PBool false /\ v_admin v = PBool false) ->
  public_open (merge rs v).
Proof.
  intros Hrs Hv k r Hin Hk. unfold merge in Hin.
  destruct (dict_find rs (v_endpoint v)) as [r0|] eqn:Ef;
    apply In_dict_set in Hin as [Hin|[-> Hkey]];
    try (now apply (Hrs k r)).
  - assert (Hep : v_endpoint v = k).
    { destruct Hkey as [->|Hkey]; [reflexivity|].
      now apply is_public_key_eqb. }
    rewrite Hep in Hv, Ef. destruct (Hv Hk) as [-> ->].
    apply dict_find_In in Ef as (k' & Hin' & Hk').
    assert (k' = k).
    { apply is_public_key_eqb; [|exact Hk]. now rewrite key_eqb_sym. }
    subst k'. destruct (Hrs k r0 Hin' Hk) as [-> ->]. simpl. auto.
  - assert (Hep : v_endpoint v = k).
    { destruct Hkey as [->|Hkey]; [reflexivity|].
      now apply is_public_key_eqb. }
    rewrite Hep in Hv. simpl. now apply Hv.
Qed.

Lemma step_public_open st st' :
  step st = Ok st' -> public_open (routes st) -> public_open (routes st').
Proof.
  unfold step. destruct (queue st) as [|[c f] q].
  - now intros [= <-].
  - intros H Hopen. apply visit_node_inv in H
      as (nd & props & ov & kids & _ & _ & Hv & Hrec & _).
    destruct ov as [v|]; simpl in Hrec.
    + destruct (hashable (v_endpoint v)); [|discriminate].
      injection Hrec as <-. apply merge_public_open; [exact Hopen|].
      intros Hp. apply route_visit_inv in Hv as (ep & s & _ & _ & ->).
      simpl in *. now rewrite applied_flags_public.
    + now injection Hrec as <-.
Qed.

Lemma iter_public_open n : forall st st',
  iter n st = Ok st' -> public_open (routes st) -> public_open (routes st').
Proof.
  induction n as [|n IH]; intros st st' H Hopen; simpl in H.
  - now injection H as <-.
  - bind_case H st1 E. eapply IH; [exact H|]. eapply step_public_open; eauto.
Qed.

End Public.

(** C3.  In the route table [traverse_graph] returns, a record stored
    under [/login], [/signup] or [/signout] has auth and admin false,
    whatever the graph is. *)
Theorem public_endpoints_open
    (fuel : nat) (nm : dict node) (ch : adjacency)
    (rt : dict route) (g : global_flags) (k : pyval) (r : route) :
  traverse_graph fuel nm ch = Done (rt, g) ->
  In (k, r) rt ->
  k = PStr "/login" \/ k = PStr "/signup" \/ k = PStr "/signout" ->
  r_auth r = PBool false /\ r_admin r = PBool false.
Proof.
  intros Hrun Hin Hk.
  apply traverse_graph_inv in Hrun as (st0 & st & Hinit & Hiter & _ & <- & _).
  apply init_inv in Hinit as (_ & _ & Hr0 & _).
  eapply (iter_public_open fuel st0 st Hiter); [| exact Hin |].
  - rewrite Hr0. intros k' r' [].
  - destruct Hk as [->|[->| ->]]; reflexivity.
Qed.

Lemma public_endpoints_open_witness :
  r_auth {| method := "post"; name := PStr "Login";
            r_auth := PBool false; r_admin := PBool false |} = PBool false /\
  r_admin {| method := "post"; name := PStr "Login";
             r_auth := PBool false; r_admin := PBool false |} = PBool false.
Proof.
  apply (public_endpoints_open 10 demo_node_map demo_children
           demo_route_table demo_globals (PStr "/login")).
  - vm_compute. reflexivity.
  - right. right. right. left. reflexivity.
  - left. reflexivity.
Defined.

(** ** Merging visits into the route table *)

Section Merge.

(** The record a first visit inserts. *)
Definition new_route (v : visit) : route :=
  {| method := v_method v; name := v_name v;
     r_auth := v_auth v; r_admin := v_admin v |}.

(** What a later visit does to the record that is there. *)
Definition widen (r : route) (v : visit) : route :=
  {| method := method r; name := name r;
     r_auth := py_or (r_auth r) (v_auth v);
     r_admin := py_or (r_admin r) (v_admin v) |}.

(** The visits of a list that reach the endpoint [k]. *)
Definition visits_to (k : pyval) (vs : list visit) : list visit :=
  List.filter (fun v => key_eqb (v_endpoint v) k) vs.

Lemma merge_find rs v k :
  hashable (v_endpoint v) = true ->
  dict_find (merge rs v) k =
  if key_eqb (v_endpoint v) k
  then Some (match dict_find rs k with
             | Some r => widen r v
             | None => new_route v
             end)
  else dict_find rs k.
Proof.
  intros Hh. unfold merge.
  destruct (key_eqb (v_endpoint v) k) eqn:E.
  - rewrite <- (dict_find_congr rs _ _ E).
    destruct (dict_find rs (v_endpoint v)); rewrite dict_find_set, E by exact Hh;
      reflexivity.
  - destruct (dict_find rs (v_endpoint v)); rewrite dict_find_set, E by exact Hh;
      reflexivity.
Qed.

Lemma merge_all_find vs : forall rs k,
  Forall (fun v => hashable (v_endpoint v) = true) vs ->
  dict_find (fold_left merge vs rs) k =
  match dict_find rs k with
  | Some r => Some (fold_left widen (visits_to k vs) r)
  | None =>
      match visits_to k vs with
      | [] => None
      | v :: vs' => Some (fold_left widen vs' (new_route v))
      end
  end.
Proof.
  induction vs as [|v vs IH]; intros rs k Hh; simpl.
  - now destruct (dict_find rs k).
  - inversion Hh as [|? ? Hv Hvs]; subst.
    rewrite IH by exact Hvs. rewrite merge_find by exact Hv.
    destruct (key_eqb (v_endpoint v) k); [|reflexivity].
    now destruct (dict_find rs k).
Qed.

Lemma widen_all_fields vs : forall r,
  method (fold_left widen vs r) = method r /\
  name (fold_left widen vs r) = name r /\
  r_auth (fold_left widen vs r) = fold_left py_or (map v_auth vs) (r_auth r) /\
  r_admin (fold_left widen vs r) = fold_left py_or (map v_admin vs) (r_admin r).
Proof.
  induction vs as [|v vs IH]; intros r; simpl; [auto|].
  destruct (IH (widen r v)) as (-> & -> & -> & ->). simpl. auto.
Qed.

Lemma truthy_py_or a b : truthy (py_or a b) = truthy a || truthy b.
Proof. unfold py_or. now destruct (truthy a) eqn:E; rewrite ?E. Qed.

Lemma truthy_fold_py_or l : forall a,
  truthy (fold_left py_or l a) = truthy a || existsb truthy l.
Proof.
  induction l as [|b l IH]; intros a; simpl.
  - now rewrite orb_false_r.
  - now rewrite IH, truthy_py_or, orb_assoc.
Qed.

(** The route table after some iterations is the merge of the visits
    made in them. *)
Lemma step_routes st st' :
  step st = Ok st' ->
  routes st' = fold_left merge (option_list (next_visit st)) (routes st) /\
  Forall (fun v => hashable (v_endpoint v) = true) (option_list (next_visit st)).
Proof.
  unfold step, next_visit. destruct (queue st) as [|[c f] q].
  - intros [= <-]. simpl. auto.
  - intros H. apply visit_node_inv in H
      as (nd & props & ov & kids & -> & -> & -> & Hrec & _).
    destruct ov as [v|]; simpl in *.
    + destruct (hashable (v_endpoint v)) eqn:Eh; [|discriminate].
      injection Hrec as <-. auto.
    + injection Hrec as <-. auto.
Qed.

Lemma iter_routes n : forall st st',
  iter n st = Ok st' ->
  routes st' = fold_left merge (route_visits n st) (routes st) /\
  Forall (fun v => hashable (v_endpoint v) = true) (route_visits n st).
Proof.
  induction n as [|n IH]; intros st st' H; simpl in *.
  - injection H as <-. auto.
  - bind_case H st1 E. destruct (step_routes _ _ E) as [Hr Hh].
    destruct (IH _ _ H) as [Hr' Hh'].
    rewrite fold_left_app, <- Hr. split; [exact Hr'|].
    apply Forall_app. auto.
Qed.

Lemma route_visits_add n : forall m st,
  route_visits (n + m) st =
  route_visits n st ++
  match iter n st with Ok st' => route_visits m st' | Raise _ => [] end.
Proof.
  induction n as [|n IH]; intros m st; simpl; [reflexivity|].
  destruct (step st) as [st1|e]; simpl; [|reflexivity].
  now rewrite IH, app_assoc.
Qed.

Lemma route_visits_done n : forall st, queue st = [] -> route_visits n st = [].
Proof.
  induction n as [|n IH]; intros st Hq; simpl; [reflexivity|].
  rewrite step_done by exact Hq. unfold next_visit. rewrite Hq. simpl.
  now apply IH.
Qed.

(** The visits of a shorter run start the visits of a drained run. *)
Lemma route_visits_prefix n fuel st st' :
  iter fuel st = Ok st' -> queue st' = [] ->
  exists rest, route_visits fuel st = route_visits n st ++ rest.
Proof.
  intros Hf Hq. destruct (Nat.le_ge_cases n fuel) as [Hle|Hge].
  - replace fuel with (n + (fuel - n)) by lia. rewrite route_visits_add. eauto.
  - exists []. rewrite app_nil_r.
    replace n with (fuel + (n - fuel)) by lia. rewrite route_visits_add, Hf.
    rewrite (route_visits_done (n - fuel) st') by exact Hq. now rewrite app_nil_r.
Qed.

End Merge.

(** C2.  Let the visits that reach an endpoint during a completed
    traversal be [v :: vs], in order.  The stored record has the method
    and name of [v]; its auth is Python's [or] over the applied auth
    values of the visits in order, which is true exactly when one of them
    is, and likewise its admin.  At every earlier point of the traversal
    at which the endpoint has a record, that record already has the method
    and name of [v]. *)
Theorem or_merge_first_writer
    (fuel : nat) (nm : dict node) (ch : adjacency) (st0 : tstate)
    (rt : dict route) (g : global_flags) (k : pyval) (v : visit) (vs : list visit) :
  init nm ch = Ok st0 ->
  traverse_graph fuel nm ch = Done (rt, g) ->
  visits_to k (route_visits fuel st0) = v :: vs ->
  (exists r,
      dict_find rt k = Some r /\
      method r = v_method v /\ name r = v_name v /\
      r_auth r = fold_left py_or (map v_auth vs) (v_auth v) /\
      r_admin r = fold_left py_or (map v_admin vs) (v_admin v) /\
      truthy (r_auth r) = existsb truthy (map v_auth (v :: vs)) /\
      truthy (r_admin r) = existsb truthy (map v_admin (v :: vs))) /\
  (forall n st r,
      iter n st0 = Ok st -> dict_find (routes st) k = Some r ->
      method r = v_method v /\ name r = v_name v).
Proof.
  intros Hinit Hrun Hvis.
  apply traverse_graph_inv in Hrun as (st0' & stf & Hinit' & Hf & Hq & <- & _).
  rewrite Hinit in Hinit'. injection Hinit' as <-.
  apply init_inv in Hinit as (_ & _ & Hr0 & _).
  split.
  - destruct (iter_routes _ _ _ Hf) as [Hr Hh].
    rewrite Hr, Hr0, merge_all_find by exact Hh. simpl. rewrite Hvis.
    eexists. split; [reflexivity|].
    destruct (widen_all_fields vs (new_route v)) as (-> & -> & -> & ->).
    simpl. rewrite !truthy_fold_py_or. repeat split; reflexivity.
  - intros n st r Hn Hfind.
    destruct (iter_routes _ _ _ Hn) as [Hr Hh].
    rewrite Hr, Hr0, merge_all_find in Hfind by exact Hh. simpl in Hfind.
    destruct (route_visits_prefix n fuel st0 stf Hf Hq) as (rest & Hrest).
    rewrite Hrest in Hvis. unfold visits_to in Hvis, Hfind.
    rewrite List.filter_app in Hvis.
    destruct (List.filter _ (route_visits n st0)) as [|v1 vs1]; [discriminate|].
    simpl in Hvis. injection Hvis as -> _. injection Hfind as <-.
    destruct (widen_all_fields vs1 (new_route v)) as (-> & -> & _). auto.
Qed.

(** Two nodes that define the same endpoint with different methods, names
    and requirements, under one entry node. *)
Definition shared_endpoint_nodes : list node :=
  [ [("id", PStr "root"); ("target", PList [PStr "open"; PStr "closed"])];
    [("id", PStr "open"); ("source", PStr "root"); ("name", PStr "Open data");
     ("properties", PDict [("endpoint", PStr "/data"); ("method", PStr "GET")])];
    [("id", PStr "closed"); ("source", PStr "root"); ("name", PStr "Closed data");
     ("properties", PDict [("auth_required", PBool true);
                           ("endpoint", PStr "/data"); ("method", PStr "POST")])] ].

Definition shared_node_map : dict node :=
  Eval vm_compute in
    match build_graph shared_endpoint_nodes with Ok (nm, _) => nm | Raise _ => [] end.

Definition shared_children : adjacency :=
  Eval vm_compute in
    match build_graph shared_endpoint_nodes with Ok (_, ch) => ch | Raise _ => [] end.

Definition shared_init : tstate :=
  Eval vm_compute in
    match init shared_node_map shared_children with
    | Ok st => st
    | Raise _ => {| node_map := []; children := []; routes := [];
                    globals := {| cors := false; logging := false |}; queue := [] |}
    end.

Definition open_visit : visit :=
  {| v_endpoint := PStr "/data"; v_method := "get"; v_name := PStr "Open data";
     v_auth := PBool false; v_admin := PBool false |}.

Definition closed_visit : visit :=
  {| v_endpoint := PStr "/data"; v_method := "post"; v_name := PStr "Closed data";
     v_auth := PBool true; v_admin := PBool false |}.

Definition shared_route_table : dict route :=
  [(PStr "/data", {| method := "get"; name := PStr "Open data";
                     r_auth := PBool true; r_admin := PBool false |})].

Lemma or_merge_first_writer_witness :
  exists r,
    dict_find shared_route_table (PStr "/data") = Some r /\
    method r = "get" /\ name r = PStr "Open data" /\
    r_auth r = fold_left py_or [PBool true] (PBool false) /\
    truthy (r_auth r) = existsb truthy [PBool false; PBool true].
Proof.
  destruct (or_merge_first_writer 5 shared_node_map shared_children shared_init
              shared_route_table {| cors := false; logging := false |}
              (PStr "/data") open_visit [closed_visit])
    as [(r & Hfind & Hm & Hn & Ha & _ & Ht & _) _].
  - vm_compute. reflexivity.
  - vm_compute. reflexivity.
  - vm_compute. reflexivity.
  - exists r. repeat split; assumption.
Defined.

(** ** The inputs are only read *)

Section Frame.

Lemma step_frame st st' :
  step st = Ok st' -> node_map st' = node_map st /\ children st' = children st.
Proof.
  unfold step. destruct (queue st) as [|[c f] q].
  - intros [= <-]. auto.
  - intros H. apply visit_node_inv in H
      as (nd & props & ov & kids & _ & _ & _ & _ & _ & Hn & Hc & _). auto.
Qed.

Lemma iter_frame n : forall st st',
  iter n st = Ok st' -> node_map st' = node_map st /\ children st' = children st.
Proof.
  induction n as [|n IH]; intros st st' H; simpl in H.
  - injection H as <-. auto.
  - bind_case H st1 E. apply step_frame in E as [E1 E2].
    apply IH in H as [H1 H2]. split; congruence.
Qed.

End Frame.



(** ** Dangling edges *)

Section Dangling.

(** Taking a child id off the queue that the node index does not have
    ends the traversal with a [KeyError]. *)
Lemma visit_dangling st cur_id f q :
  hashable cur_id = true ->
  dict_find (node_map st) cur_id = None ->
  visit_node st cur_id f q = Raise KeyError.
Proof.
  intros Hh Hf. unfold visit_node, getitem. now rewrite Hh, Hf.
Qed.

(** One route node whose [target] names a node that does not exist. *)
Definition dangling_nodes : list node :=
  [ [("id", PInt 1); ("target", PInt 2);
     ("properties", PDict [("endpoint", PStr "/home"); ("method", PStr "GET")])] ].

(** The same node without the edge. *)
Definition pruned_nodes : list node :=
  [ [("id", PInt 1);
     ("properties", PDict [("endpoint", PStr "/home"); ("method", PStr "GET")])] ].

(** [build_graph] followed by [traverse_graph], as [main] calls them. *)
Definition build_and_traverse (fuel : nat) (nodes : list node)
  : outcome (dict route * global_flags) :=
  match build_graph nodes with
  | Ok (nm, ch) => traverse_graph fuel nm ch
  | Raise e => Failed e
  end.

End Dangling.

(** C1, as the code behaves.  On a graph with one dangling edge the
    traversal ends with a [KeyError] as soon as the loop has fuel to take
    the dangling child off the queue, and never returns; without the edge
    it returns the route table with the one route. *)
Theorem dangling_edge_raises_key_error :
  (forall fuel,
      build_and_traverse fuel dangling_nodes =
      match fuel with
      | 0 | 1 => OutOfFuel
      | _ => Failed KeyError
      end) /\
  build_and_traverse 1 pruned_nodes =
  Done ([(PStr "/home", {| method := "get"; name := PStr "Unnamed Route";
                           r_auth := PBool false; r_admin := PBool false |})],
        {| cors := false; logging := false |}).
Proof.
  split; [|vm_compute; reflexivity].
  intros [|[|[|fuel]]]; vm_compute; reflexivity.
Qed.

(** ** Paths and inherited flags *)

Section Paths.

(** The properties the loop reads at the node with id [id], when the
    visit of that node gets as far as reading them. *)
Definition props_at (nm : dict node) (id : pyval) : option sdict :=
  match getitem nm id with
  | Ok nd => match node_props nd with Ok props => Some props | Raise _ => None end
  | Raise _ => None
  end.

(** [walk nm ch p c]: the ids [p], an entry node first, are the nodes a
    traversal path went through before it reached [c]. *)
Inductive walk (nm : dict node) (ch : adjacency) : list pyval -> pyval -> Prop :=
| walk_entry es nd id :
    entry_nodes (values nm) = Ok es -> In nd es -> node_id nd = Ok id ->
    walk nm ch [] id
| walk_child p a c :
    walk nm ch p a -> is_Some (props_at nm a) ->
    In c (default [] (dict_find ch a)) ->
    walk nm ch (p ++ [a]) c.

(** The properties of the nodes of a path, in path order. *)
Definition path_props (nm : dict node) (p : list pyval) : list sdict :=
  map (fun id => default [] (props_at nm id)) p.

(** The flags a path delivers: the overrides of its nodes applied in
    path order to fresh flags. *)
Definition flags_along (nm : dict node) (p : list pyval) : flags :=
  fold_left (fun f props => override props f) (path_props nm p) fresh_flags.

(** The value of [key] at the node closest to the end of the path that
    has it. *)
Fixpoint closest (key : string) (pl : list sdict) : option pyval :=
  match pl with
  | [] => None
  | props :: rest =>
      match closest key rest with
      | Some v => Some v
      | None => sget props key
      end
  end.

(** The paths that led to the queue entries, kept beside the queue: an
    entry that is taken off the queue hands its path, extended by its own
    id, to each child it enqueues. *)
Definition step_paths (st : tstate) (ps : list (list pyval)) : list (list pyval) :=
  match queue st, ps with
  | (cur_id, _) :: _, p :: ps' =>
      ps' ++ map (fun _ => p ++ [cur_id]) (default [] (dict_find (children st) cur_id))
  | _, _ => ps
  end.

Fixpoint iter_paths (n : nat) (st : tstate) (ps : list (list pyval)) : list (list pyval) :=
  match n with
  | O => ps
  | S n' =>
      match step st with
      | Ok st' => iter_paths n' st' (step_paths st ps)
      | Raise _ => ps
      end
  end.

(** The entries the queue starts with were led to by the empty path. *)
Definition seed_paths (st : tstate) : list (list pyval) :=
  map (fun _ => []) (queue st).

Lemma override_auth props f :
  auth (override props f) = default (auth f) (sget props "auth_required").
Proof.
  unfold override. destruct f as [a b].
  destruct (sget props "auth_required"), (sget props "admin_required"); reflexivity.
Qed.

Lemma override_admin props f :
  admin (override props f) = default (admin f) (sget props "admin_required").
Proof.
  unfold override. destruct f as [a b].
  destruct (sget props "auth_required"), (sget props "admin_required"); reflexivity.
Qed.

Lemma fold_override_closest pl : forall f,
  auth (fold_left (fun f props => override props f) pl f)
    = default (auth f) (closest "auth_required" pl) /\
  admin (fold_left (fun f props => override props f) pl f)
    = default (admin f) (closest "admin_required" pl).
Proof.
  induction pl as [|props pl IH]; intros f; simpl; [auto|].
  destruct (IH (override props f)) as [-> ->].
  rewrite override_auth, override_admin.
  destruct (closest "auth_required" pl), (closest "admin_required" pl); auto.
Qed.

Lemma flags_along_snoc nm p a :
  flags_along nm (p ++ [a]) = override (default [] (props_at nm a)) (flags_along nm p).
Proof.
  unfold flags_along, path_props. now rewrite map_app, fold_left_app.
Qed.

(** Each queue entry was reached along its path and carries the flags
    the path delivers. *)
Definition on_path (nm : dict node) (ch : adjacency)
    (e : pyval * flags) (p : list pyval) : Prop :=
  walk nm ch p (fst e) /\ snd e = flags_along nm p.

Lemma seed_on_path nm ch es0 es : forall q,
  entry_nodes (values nm) = Ok es0 ->
  (forall nd, In nd es -> In nd es0) ->
  seed es = Ok q ->
  Forall2 (on_path nm ch) q (map (fun _ => []) q).
Proof.
  induction es as [|nd es IH]; intros q He Hsub H; simpl in H.
  - injection H as <-. constructor.
  - bind_case H c E1. bind_case H q' E2. injection H as <-.
    simpl. constructor.
    + split; [|reflexivity]. simpl.
      apply (walk_entry nm ch es0 nd c); auto. apply Hsub. now left.
    + apply IH; auto. intros nd' Hin. apply Hsub. now right.
Qed.

Lemma step_on_path st st' ps :
  step st = Ok st' ->
  Forall2 (on_path (node_map st) (children st)) (queue st) ps ->
  Forall2 (on_path (node_map st) (children st)) (queue st') (step_paths st ps).
Proof.
  unfold step, step_paths. intros H Hinv.
  destruct (queue st) as [|[c f] q] eqn:Eq.
  - injection H as <-. now rewrite Eq.
  - inversion Hinv as [|? p ? ps' [Hw Hf] Hrest]; subst. simpl in Hw, Hf.
    apply visit_node_inv in H
      as (nd & props & ov & kids & Hnd & Hprops & _ & _ & Hkids & _ & _ & _ & ->).
    assert (Hpa : props_at (node_map st) c = Some props).
    { unfold props_at. now rewrite Hnd, Hprops. }
    unfold get_default in Hkids.
    destruct (hashable c); [|discriminate]. injection Hkids as <-.
    apply Forall2_app; [exact Hrest|].
    apply Forall2_fmap. apply Forall_Forall2_diag.
    apply Forall_forall. intros k Hk. split; simpl.
    + apply walk_child; [exact Hw | rewrite Hpa; eauto |].
      now apply list_elem_of_In.
    + now rewrite flags_along_snoc, Hpa, Hf.
Qed.

Lemma iter_on_path n : forall st st' ps,
  iter n st = Ok st' ->
  Forall2 (on_path (node_map st) (children st)) (queue st) ps ->
  Forall2 (on_path (node_map st) (children st)) (queue st') (iter_paths n st ps).
Proof.
  induction n as [|n IH]; intros st st' ps H Hinv; simpl in *.
  - now injection H as <-.
  - bind_case H st1 E.
    destruct (step_frame _ _ E) as [<- <-].
    apply IH; [exact H|].
    destruct (step_frame _ _ E) as [-> ->].
    now apply step_on_path.
Qed.

End Paths.

(** C4.  A node that has [auth_required] sets the auth flag of the path
    to that value, whatever the flag was, and leaves it alone otherwise;
    likewise [admin_required] and the admin flag.  Every entry in the
    queue, at every point of the traversal, was reached along a path from
    an entry node, and its auth flag is the [auth_required] of the node
    closest to it on that path that has one, or false when none has; the
    same for admin. *)
Theorem override_propagates
    (n : nat) (nm : dict node) (ch : adjacency) (st0 st : tstate) :
  init nm ch = Ok st0 ->
  iter n st0 = Ok st ->
  (forall props f v, sget props "auth_required" = Some v -> auth (override props f) = v) /\
  (forall props f v, sget props "admin_required" = Some v -> admin (override props f) = v) /\
  (forall props f, sget props "auth_required" = None -> auth (override props f) = auth f) /\
  (forall props f, sget props "admin_required" = None -> admin (override props f) = admin f) /\
  Forall2 (fun e p =>
             walk nm ch p (fst e) /\
             auth (snd e)
               = default (PBool false) (closest "auth_required" (path_props nm p)) /\
             admin (snd e)
               = default (PBool false) (closest "admin_required" (path_props nm p)))
          (queue st) (iter_paths n st0 (seed_paths st0)).
Proof.
  intros Hinit Hiter.
  split; [intros props f v H; now rewrite override_auth, H|].
  split; [intros props f v H; now rewrite override_admin, H|].
  split; [intros props f H; now rewrite override_auth, H|].
  split; [intros props f H; now rewrite override_admin, H|].
  destruct (init_inv _ _ _ Hinit) as (Hn & Hc & _ & _ & es & Hes & Hseed).
  assert (H0 : Forall2 (on_path (node_map st0) (children st0)) (queue st0) (seed_paths st0)).
  { rewrite Hn, Hc. apply (seed_on_path nm ch es es); auto. }
  pose proof (iter_on_path n st0 st _ Hiter H0) as H. rewrite Hn, Hc in H.
  eapply Forall2_impl; [exact H|].
  intros [c f] p [Hw Hf]. simpl in *. split; [exact Hw|].
  rewrite Hf. unfold flags_along.
  destruct (fold_override_closest (path_props nm p) fresh_flags) as [-> ->]. auto.
Qed.

(** The state of the demo traversal after the entry node and its two
    children were visited. *)
Definition demo_after_branches : tstate :=
  Eval vm_compute in
    match iter 3 demo_init with Ok st => st | Raise _ => demo_init end.

Lemma override_propagates_witness :
  queue demo_after_branches =
    [ (PInt 4, {| auth := PBool true; admin := PBool false |});
      (PInt 4, {| auth := PBool false; admin := PBool false |}) ] /\
  iter_paths 3 demo_init (seed_paths demo_init) = [ [PInt 1; PInt 2]; [PInt 1; PInt 3] ] /\
  Forall2 (fun e p =>
             walk demo_node_map demo_children p (fst e) /\
             auth (snd e)
               = default (PBool false) (closest "auth_required" (path_props demo_node_map p)) /\
             admin (snd e)
               = default (PBool false) (closest "admin_required" (path_props demo_node_map p)))
          (queue demo_after_branches) (iter_paths 3 demo_init (seed_paths demo_init)).
Proof.
  split; [reflexivity|]. split; [vm_compute; reflexivity|].
  apply (override_propagates 3 demo_node_map demo_children demo_init demo_after_branches).
  - vm_compute. reflexivity.
  - vm_compute. reflexivity.
Defined.

(** ** The queue is first in, first out, and has no visited set *)

Section Fifo.

(** The route visit that taking the entry [e] off the queue performs. *)
Definition visit_of (nm : dict node) (e : pyval * flags) : option visit :=
  match getitem nm (fst e) with
  | Ok nd =>
      match node_props nd with
      | Ok props =>
          match route_visit nd props (override props (snd e)) with
          | Ok ov => ov
          | Raise _ => None
          end
      | Raise _ => None
      end
  | Raise _ => None
  end.

(** The entries the next iteration appends to the queue. *)
Definition next_children (st : tstate) : list (pyval * flags) :=
  match queue st with
  | [] => []
  | (cur_id, f) :: _ =>
      match props_at (node_map st) cur_id with
      | Some props =>
          map (fun child_id => (child_id, override props f))
              (default [] (dict_find (children st) cur_id))
      | None => []
      end
  end.

(** The entries the first [n] iterations append to the queue. *)
Fixpoint enqueued (n : nat) (st : tstate) : list (pyval * flags) :=
  match n with
  | O => []
  | S n' =>
      match step st with
      | Ok st' => next_children st ++ enqueued n' st'
      | Raise _ => []
      end
  end.

Lemma step_queue st st' :
  step st = Ok st' ->
  option_list (head (queue st)) ++ queue st' = queue st ++ next_children st.
Proof.
  unfold step, next_children. destruct (queue st) as [|[c f] q] eqn:Eq.
  - intros [= <-]. now rewrite Eq.
  - intros H. apply visit_node_inv in H
      as (nd & props & ov & kids & Hnd & Hprops & _ & _ & Hkids & _ & _ & _ & ->).
    unfold props_at. rewrite Hnd, Hprops.
    unfold get_default in Hkids. destruct (hashable c); [|discriminate].
    injection Hkids as <-. reflexivity.
Qed.

Lemma iter_queue n : forall st st',
  iter n st = Ok st' ->
  dequeued n st ++ queue st' = queue st ++ enqueued n st.
Proof.
  induction n as [|n IH]; intros st st' H; simpl in *.
  - injection H as <-. now rewrite app_nil_r.
  - bind_case H st1 E. rewrite <- app_assoc, (IH _ _ H).
    now rewrite !app_assoc, (step_queue _ _ E).
Qed.

(** Whatever is taken off the queue has each of its children put on the
    queue, with the flags as the node left them, whether or not the child
    was visited before or is an entry node. *)
Lemma dequeued_children n : forall st st' a f props c,
  iter n st = Ok st' ->
  In (a, f) (dequeued n st) ->
  props_at (node_map st) a = Some props ->
  In c (default [] (dict_find (children st) a)) ->
  In (c, override props f) (enqueued n st).
Proof.
  induction n as [|n IH]; intros st st' a f props c H Hin Hp Hc; simpl in *.
  - destruct Hin.
  - bind_case H st1 E. apply in_app_iff in Hin as [Hin|Hin]; apply in_app_iff.
    + left. unfold next_children.
      destruct (queue st) as [|[a' f'] q]; simpl in Hin; [destruct Hin|].
      destruct Hin as [[= -> ->]|[]]. rewrite Hp.
      now apply (in_map (fun child_id => (child_id, override props f))).
    + right. destruct (step_frame _ _ E) as [En Ec].
      apply (IH st1 st' a f props c H Hin); now rewrite ?En, ?Ec.
Qed.

Lemma next_visit_head st :
  next_visit st =
  match head (queue st) with
  | Some e => visit_of (node_map st) e
  | None => None
  end.
Proof. unfold next_visit, visit_of. now destruct (queue st) as [|[c f] q]. Qed.

Lemma iter_visits n : forall st st',
  iter n st = Ok st' ->
  route_visits n st
    = concat (map (fun e => option_list (visit_of (node_map st) e)) (dequeued n st)).
Proof.
  induction n as [|n IH]; intros st st' H; simpl in *; [reflexivity|].
  bind_case H st1 E. rewrite map_app, concat_app, (IH _ _ H).
  destruct (step_frame _ _ E) as [-> _]. f_equal.
  rewrite next_visit_head. destruct (head (queue st)); simpl;
    now rewrite ?app_nil_r.
Qed.

Lemma seed_In es : forall q nd c,
  seed es = Ok q -> In nd es -> node_id nd = Ok c -> In (c, fresh_flags) q.
Proof.
  induction es as [|nd0 es IH]; intros q nd c H Hin Hid; simpl in *; [destruct Hin|].
  bind_case H c0 E1. bind_case H q' E2. injection H as <-.
  destruct Hin as [->|Hin].
  - left. congruence.
  - right. eauto.
Qed.

Lemma entry_nodes_In nds : forall es nd,
  entry_nodes nds = Ok es -> In nd nds -> is_entry nd = Ok true -> In nd es.
Proof.
  induction nds as [|nd0 nds IH]; intros es nd H Hin He; simpl in *; [destruct Hin|].
  bind_case H b E1. bind_case H es' E2. injection H as <-.
  destruct Hin as [->|Hin].
  - rewrite He in E1. injection E1 as <-. now left.
  - destruct b; [right|]; eauto.
Qed.

(** A visit that was made is among the visits to its endpoint. *)
Lemma visits_to_In v vs :
  Forall (fun v => hashable (v_endpoint v) = true) vs ->
  In v vs -> In v (visits_to (v_endpoint v) vs).
Proof.
  intros Hh Hin. unfold visits_to. apply filter_In. split; [exact Hin|].
  apply key_eqb_refl. rewrite Forall_forall in Hh. apply Hh.
  now apply list_elem_of_In.
Qed.

Lemma existsb_In_truthy (l : list pyval) x :
  In x l -> truthy x = true -> existsb truthy l = true.
Proof. intros Hin Hx. apply existsb_exists. eauto. Qed.

End Fifo.

Section Revisit.

(** The record stored for an endpoint that was visited is the or-merge
    of all the visits to it. *)
Lemma visited_record n st0 st v :
  routes st0 = [] ->
  iter n st0 = Ok st ->
  In v (route_visits n st0) ->
  In v (visits_to (v_endpoint v) (route_visits n st0)) /\
  exists r,
    dict_find (routes st) (v_endpoint v) = Some r /\
    truthy (r_auth r)
      = existsb truthy (map v_auth (visits_to (v_endpoint v) (route_visits n st0))) /\
    truthy (r_admin r)
      = existsb truthy (map v_admin (visits_to (v_endpoint v) (route_visits n st0))).
Proof.
  intros Hr0 Hiter Hin.
  destruct (iter_routes _ _ _ Hiter) as [Hr Hh].
  pose proof (visits_to_In v _ Hh Hin) as Hv. split; [exact Hv|].
  rewrite Hr, Hr0, merge_all_find by exact Hh. simpl.
  destruct (visits_to (v_endpoint v) (route_visits n st0)) as [|v0 vs]; [destruct Hv|].
  eexists. split; [reflexivity|].
  destruct (widen_all_fields vs (new_route v0)) as (_ & _ & -> & ->).
  simpl. now rewrite !truthy_fold_py_or.
Qed.

Lemma visit_of_endpoint nm c f f' v v' :
  visit_of nm (c, f) = Some v -> visit_of nm (c, f') = Some v' ->
  v_endpoint v = v_endpoint v' /\ v_method v = v_method v' /\ v_name v = v_name v'.
Proof.
  unfold visit_of. simpl. destruct (getitem nm c) as [nd|]; [|discriminate].
  destruct (node_props nd) as [props|]; [|discriminate].
  destruct (route_visit nd props (override props f)) as [ov|] eqn:E; [|discriminate].
  destruct (route_visit nd props (override props f')) as [ov'|] eqn:E'; [|discriminate].
  intros -> ->.
  apply route_visit_inv in E as (ep & s & Hep & Hm & ->).
  apply route_visit_inv in E' as (ep' & s' & Hep' & Hm' & ->).
  simpl. rewrite Hep in Hep'. rewrite Hm in Hm'.
  injection Hep' as <-. injection Hm' as <-. auto.
Qed.

Lemma dequeued_visit n st st' e v :
  iter n st = Ok st' ->
  In e (dequeued n st) -> visit_of (node_map st) e = Some v ->
  In v (route_visits n st).
Proof.
  intros Hiter Hin Hv. rewrite (iter_visits _ _ _ Hiter).
  apply in_concat. exists (option_list (visit_of (node_map st) e)). split.
  - now apply (in_map (fun e => option_list (visit_of (node_map st) e))).
  - rewrite Hv. now left.
Qed.

End Revisit.

(** C10.  In a completed traversal, let [c] be the id of an entry node
    and a child of a node [a] that was taken off the queue with flags [f].
    Then [c] is taken off the queue at least twice: once as a seed with
    fresh flags, and later with the flags [a] left for its children.  If
    the node is a route node, both visits are among the visits to its
    endpoint, and the stored record is the or-merge of those visits: its
    auth is true exactly when one of them applied a true auth, so in
    particular when the visit from [a] did; likewise for admin. *)
Theorem entry_node_revisited
    (fuel : nat) (nm : dict node) (ch : adjacency) (st0 stf : tstate)
    (nd : node) (c a : pyval) (f : flags) (props : sdict) :
  init nm ch = Ok st0 ->
  run fuel st0 = Done stf ->
  In nd (values nm) -> is_entry nd = Ok true -> node_id nd = Ok c ->
  In (a, f) (dequeued fuel st0) ->
  props_at nm a = Some props ->
  In c (default [] (dict_find ch a)) ->
  (exists i j,
      i < j /\
      dequeued fuel st0 !! i = Some (c, fresh_flags) /\
      dequeued fuel st0 !! j = Some (c, override props f)) /\
  (forall v1 v2,
      visit_of nm (c, fresh_flags) = Some v1 ->
      visit_of nm (c, override props f) = Some v2 ->
      v_endpoint v2 = v_endpoint v1 /\
      In v1 (visits_to (v_endpoint v1) (route_visits fuel st0)) /\
      In v2 (visits_to (v_endpoint v1) (route_visits fuel st0)) /\
      exists r,
        dict_find (routes stf) (v_endpoint v1) = Some r /\
        truthy (r_auth r)
          = existsb truthy (map v_auth (visits_to (v_endpoint v1) (route_visits fuel st0))) /\
        truthy (r_admin r)
          = existsb truthy (map v_admin (visits_to (v_endpoint v1) (route_visits fuel st0))) /\
        (truthy (v_auth v2) = true -> truthy (r_auth r) = true) /\
        (truthy (v_admin v2) = true -> truthy (r_admin r) = true)).
Proof.
  intros Hinit Hrun Hnd Hentry Hid Ha Hprops Hc.
  destruct (init_inv _ _ _ Hinit) as (Hn & Hch & Hr0 & _ & es & Hes & Hseed).
  destruct (run_iter _ _ _ Hrun) as [Hiter Hq].
  pose proof (iter_queue _ _ _ Hiter) as Hfifo. rewrite Hq, app_nil_r in Hfifo.
  assert (Hfresh : In (c, fresh_flags) (queue st0)).
  { eapply seed_In; [exact Hseed | | exact Hid]. eapply entry_nodes_In; eauto. }
  assert (Hinh : In (c, override props f) (enqueued fuel st0)).
  { eapply dequeued_children; [exact Hiter | exact Ha | now rewrite Hn | now rewrite Hch]. }
  split.
  - apply list_elem_of_In, list_elem_of_lookup in Hfresh as [i Hi].
    apply list_elem_of_In, list_elem_of_lookup in Hinh as [j Hj].
    exists i, (length (queue st0) + j). rewrite Hfifo.
    pose proof (lookup_lt_Some _ _ _ Hi) as Hlt.
    split; [lia|]. split.
    + now rewrite lookup_app_l.
    + rewrite lookup_app_r by lia.
      now replace (length (queue st0) + j - length (queue st0)) with j by lia.
  - intros v1 v2 Hv1 Hv2.
    destruct (visit_of_endpoint _ _ _ _ _ _ Hv1 Hv2) as (Hep & _ & _).
    assert (Hin1 : In v1 (route_visits fuel st0)).
    { eapply dequeued_visit; [exact Hiter | | rewrite Hn; exact Hv1].
      rewrite Hfifo. apply in_app_iff. now left. }
    assert (Hin2 : In v2 (route_visits fuel st0)).
    { eapply dequeued_visit; [exact Hiter | | rewrite Hn; exact Hv2].
      rewrite Hfifo. apply in_app_iff. now right. }
    destruct (visited_record _ _ _ _ Hr0 Hiter Hin1) as (Hvt1 & r & Hfind & Hauth & Hadmin).
    destruct (visited_record _ _ _ _ Hr0 Hiter Hin2) as (Hvt2 & _).
    rewrite <- Hep in Hvt2.
    split; [now symmetry|]. split; [exact Hvt1|]. split; [exact Hvt2|].
    exists r. split; [exact Hfind|]. split; [exact Hauth|]. split; [exact Hadmin|].
    split; intros Ht.
    + rewrite Hauth. apply existsb_In_truthy with (v_auth v2); [|exact Ht].
      now apply in_map.
    + rewrite Hadmin. apply existsb_In_truthy with (v_admin v2); [|exact Ht].
      now apply in_map.
Qed.

(** A route node that is an entry by its [type] and is also the target
    of a node that requires authentication. *)
Definition revisit_nodes : list node :=
  [ [("id", PStr "gate"); ("target", PStr "home");
     ("properties", PDict [("auth_required", PBool true)])];
    [("id", PStr "home"); ("source", PStr "gate"); ("name", PStr "Home");
     ("properties", PDict [("type", PStr "entry");
                           ("endpoint", PStr "/home"); ("method", PStr "GET")])] ].

Definition revisit_node_map : dict node :=
  Eval vm_compute in
    match build_graph revisit_nodes with Ok (nm, _) => nm | Raise _ => [] end.

Definition revisit_children : adjacency :=
  Eval vm_compute in
    match build_graph revisit_nodes with Ok (_, ch) => ch | Raise _ => [] end.

Definition revisit_init : tstate :=
  Eval vm_compute in
    match init revisit_node_map revisit_children with
    | Ok st => st
    | Raise _ => {| node_map := []; children := []; routes := [];
                    globals := {| cors := false; logging := false |}; queue := [] |}
    end.

Definition revisit_final : tstate :=
  Eval vm_compute in
    match iter 3 revisit_init with Ok st => st | Raise _ => revisit_init end.

Definition home_visit (a : bool) : visit :=
  {| v_endpoint := PStr "/home"; v_method := "get"; v_name := PStr "Home";
     v_auth := PBool a; v_admin := PBool false |}.

Lemma entry_node_revisited_witness :
  routes revisit_final =
    [(PStr "/home", {| method := "get"; name := PStr "Home";
                       r_auth := PBool true; r_admin := PBool false |})] /\
  (exists i j,
      i < j /\
      dequeued 3 revisit_init !! i = Some (PStr "home", fresh_flags) /\
      dequeued 3 revisit_init !! j
        = Some (PStr "home", {| auth := PBool true; admin := PBool false |})) /\
  exists r,
    dict_find (routes revisit_final) (PStr "/home") = Some r /\ truthy (r_auth r) = true.
Proof.
  split; [reflexivity|].
  destruct (entry_node_revisited 3 revisit_node_map revisit_children
              revisit_init revisit_final
              [("id", PStr "home"); ("source", PStr "gate"); ("name", PStr "Home");
               ("properties", PDict [("type", PStr "entry");
                                     ("endpoint", PStr "/home"); ("method", PStr "GET")])]
              (PStr "home") (PStr "gate") fresh_flags
              [("auth_required", PBool true)])
    as [Hpos Hrec].
  - vm_compute. reflexivity.
  - vm_compute. reflexivity.
  - right. left. reflexivity.
  - vm_compute. reflexivity.
  - vm_compute. reflexivity.
  - vm_compute. left. reflexivity.
  - vm_compute. reflexivity.
  - left. reflexivity.
  - split; [exact Hpos|].
    destruct (Hrec (home_visit false) (home_visit true)) as (_ & _ & _ & r & Hfind & _ & _ & Ha & _).
    + vm_compute. reflexivity.
    + vm_compute. reflexivity.
    + exists r. split; [exact Hfind|]. apply Ha. reflexivity.
Defined.

(** ** Two traversals of graphs that differ in some nodes' requirements *)

Section Isolation.

(** The keys of the two local overrides. *)
Definition is_requirement (key : string) : bool :=
  String.eqb key "auth_required" || String.eqb key "admin_required".

(** A properties object without its requirement keys. *)
Definition other_props (p : sdict) : sdict :=
  List.filter (fun kv => negb (is_requirement (fst kv))) p.

(** The [properties] field as the code reads it: none is the empty
    object. *)
Definition props_field (nd : node) : pyval := default (PDict []) (sget nd "properties").

(** Two property values that differ at most in the requirement keys. *)
Definition sim_props (v v' : pyval) : Prop :=
  match v, v' with
  | PDict p, PDict p' => other_props p = other_props p'
  | _, _ => v = v'
  end.

(** Two node records that differ at most in their requirements. *)
Definition sim_node (nd nd' : node) : Prop :=
  sget nd "id" = sget nd' "id" /\
  sget nd "source" = sget nd' "source" /\
  sget nd "name" = sget nd' "name" /\
  sim_props (props_field nd) (props_field nd').

(** [c] is one of the ids [ms]. *)
Definition touched (ms : list pyval) (c : pyval) : bool :=
  existsb (fun m => key_eqb m c) ms.

(** Two node indexes with the same keys, whose nodes differ at most in
    their requirements, and only under the ids [ms]. *)
Definition sim_index (ms : list pyval) (nm nm' : dict node) : Prop :=
  Forall2 (fun kv kv' =>
             fst kv = fst kv' /\ sim_node (snd kv) (snd kv') /\
             (touched ms (fst kv) = false -> snd kv = snd kv'))
          nm nm'.

(** Two results that fail alike or succeed with related values. *)
Definition sim_result {A B} (R : A -> B -> Prop) (r : result A) (r' : result B) : Prop :=
  match r, r' with
  | Ok a, Ok b => R a b
  | Raise e, Raise e' => e = e'
  | _, _ => False
  end.

(** Two queue entries for the same node, with the same flags when no
    node on the path to them is among [ms]. *)
Definition sim_entry (ms : list pyval) (e e' : pyval * flags) (p : list pyval) : Prop :=
  fst e = fst e' /\ (existsb (touched ms) p = false -> snd e = snd e').

Definition sim_state (ms : list pyval) (st st' : tstate) (ps : list (list pyval)) : Prop :=
  sim_index ms (node_map st) (node_map st') /\
  children st = children st' /\
  globals st = globals st' /\
  Forall3 (sim_entry ms) (queue st) (queue st') ps.

Lemma sget_other_props p key :
  is_requirement key = false -> sget (other_props p) key = sget p key.
Proof.
  intros Hk. induction p as [|[k v] p IH]; simpl; [reflexivity|].
  destruct (is_requirement k) eqn:Ek; simpl.
  - destruct (String.eqb_spec k key) as [->|_]; [congruence | exact IH].
  - now rewrite IH.
Qed.

Lemma other_props_sget p p' key :
  other_props p = other_props p' -> is_requirement key = false ->
  sget p key = sget p' key.
Proof.
  intros H Hk. rewrite <- (sget_other_props p), <- (sget_other_props p') by exact Hk.
  now rewrite H.
Qed.

Lemma touched_congr ms k c : key_eqb k c = true -> touched ms k = touched ms c.
Proof.
  intros Hk. unfold touched. induction ms as [|m ms IH]; simpl; [reflexivity|].
  rewrite IH. f_equal.
  rewrite (key_eqb_sym m k), (key_eqb_sym m c). now apply key_eqb_congr.
Qed.

Lemma sim_node_refl nd : sim_node nd nd.
Proof.
  unfold sim_node, sim_props. repeat split. now destruct (props_field nd).
Qed.

Lemma sim_find ms nm nm' c :
  sim_index ms nm nm' ->
  match dict_find nm c, dict_find nm' c with
  | Some nd, Some nd' => sim_node nd nd' /\ (touched ms c = false -> nd = nd')
  | None, None => True
  | _, _ => False
  end.
Proof.
  induction 1 as [|[k nd] [k' nd'] nm nm' (Hk & Hsim & Heq) _ IH]; simpl; [exact I|].
  simpl in Hk, Hsim, Heq. subst k'.
  destruct (key_eqb k c) eqn:E; [|exact IH].
  split; [exact Hsim|]. rewrite <- (touched_congr ms k c E). exact Heq.
Qed.

Lemma sim_getitem ms nm nm' c :
  sim_index ms nm nm' ->
  sim_result (fun nd nd' => sim_node nd nd' /\ (touched ms c = false -> nd = nd'))
             (getitem nm c) (getitem nm' c).
Proof.
  intros H. pose proof (sim_find ms nm nm' c H) as Hf. unfold getitem.
  destruct (hashable c); [|reflexivity].
  destruct (dict_find nm c), (dict_find nm' c); simpl; tauto.
Qed.

(** [is_entry] and [node_props] in terms of the field value. *)
Lemma is_entry_field nd :
  is_entry nd =
  match sget nd "source" with
  | None | Some PNone => Ok true
  | Some _ =>
      match props_field nd with
      | PDict p => Ok (match sget p "type" with
                       | Some (PStr s) => String.eqb s "entry"
                       | _ => false
                       end)
      | _ => Raise AttributeError
      end
  end.
Proof.
  unfold is_entry, props_field.
  destruct (sget nd "source") as [[]|]; try reflexivity;
    destruct (sget nd "properties") as [[]|]; reflexivity.
Qed.

Lemma node_props_field nd :
  node_props nd =
  match props_field nd with
  | PDict p => Ok p
  | PStr _ | PList _ => Raise AttributeError
  | _ => Raise TypeError
  end.
Proof.
  unfold node_props, props_field.
  destruct (sget nd "properties") as [[]|]; reflexivity.
Qed.

Lemma sim_node_entry nd nd' : sim_node nd nd' -> is_entry nd = is_entry nd'.
Proof.
  intros (_ & Hs & _ & Hp). rewrite !is_entry_field, Hs. unfold sim_props in Hp.
  destruct (sget nd' "source") as [[]|]; try reflexivity;
    destruct (props_field nd), (props_field nd');
    try discriminate Hp; try reflexivity;
    now rewrite (other_props_sget _ _ "type" Hp eq_refl).
Qed.

Lemma sim_node_id nd nd' : sim_node nd nd' -> node_id nd = node_id nd'.
Proof. intros (Hi & _). unfold node_id. now rewrite Hi. Qed.

Lemma sim_node_props nd nd' :
  sim_node nd nd' ->
  sim_result (fun p p' => other_props p = other_props p') (node_props nd) (node_props nd').
Proof.
  intros (_ & _ & _ & Hp). rewrite !node_props_field. unfold sim_props in Hp.
  destruct (props_field nd), (props_field nd'); try discriminate Hp; simpl; auto.
Qed.

Lemma sim_update_global p p' g :
  other_props p = other_props p' -> update_global p g = update_global p' g.
Proof.
  intros H. unfold update_global, has_key.
  now rewrite (other_props_sget _ _ "allowed_origins" H eq_refl),
              (other_props_sget _ _ "log_requests" H eq_refl).
Qed.

(** The two visits of a node define the same route, or both none, or
    fail alike. *)
Definition sim_visit (ov ov' : option visit) : Prop :=
  match ov, ov' with
  | Some v, Some v' =>
      v_endpoint v = v_endpoint v' /\ v_method v = v_method v' /\ v_name v = v_name v'
  | None, None => True
  | _, _ => False
  end.

Lemma sim_route_visit nd nd' p p' f f' :
  sget nd "name" = sget nd' "name" ->
  other_props p = other_props p' ->
  sim_result sim_visit (route_visit nd p f) (route_visit nd' p' f').
Proof.
  intros Hn Hp. unfold route_visit.
  rewrite (other_props_sget _ _ "endpoint" Hp eq_refl),
          (other_props_sget _ _ "method" Hp eq_refl), Hn.
  destruct (sget p' "endpoint") as [ep|]; [|exact I].
  destruct (sget p' "method") as [[]|]; simpl; auto.
Qed.

Lemma sim_record_visit rs rs' ov ov' :
  sim_visit ov ov' ->
  sim_result (fun _ _ => True) (record_visit rs ov) (record_visit rs' ov').
Proof.
  unfold sim_visit, record_visit.
  destruct ov as [v|], ov' as [v'|]; simpl; try tauto.
  intros (-> & _). now destruct (hashable (v_endpoint v')).
Qed.

End Isolation.

Section Simulation.

Variable ms : list pyval.

Lemma Forall3_map_diag {A B C D} (P : B -> C -> D -> Prop)
    (f1 : A -> B) (f2 : A -> C) (f3 : A -> D) (l : list A) :
  (forall x, P (f1 x) (f2 x) (f3 x)) -> Forall3 P (map f1 l) (map f2 l) (map f3 l).
Proof. intros H. induction l; simpl; constructor; auto. Qed.

Lemma sim_override p p' f f' :
  p = p' -> f = f' -> override p f = override p' f'.
Proof. now intros -> ->. Qed.

Lemma step_sim st st' ps :
  sim_state ms st st' ps ->
  sim_result (fun s1 s1' => sim_state ms s1 s1' (step_paths st ps)) (step st) (step st').
Proof.
  intros (Hnm & Hch & Hg & Hq). unfold step, step_paths.
  destruct (queue st) as [|[c f] q] eqn:Eq; destruct (queue st') as [|[c' f'] q'] eqn:Eq';
    inversion Hq as [|? ? p ? ? ps' [Hc Hf] Hrest]; subst.
  - simpl. unfold sim_state. rewrite Eq, Eq'. auto.
  - simpl in Hc, Hf. subst c'. unfold visit_node.
    pose proof (sim_getitem ms _ _ c Hnm) as Hget.
    destruct (getitem (node_map st) c) as [nd|e], (getitem (node_map st') c) as [nd'|e'];
      simpl in Hget |- *; try contradiction; [|exact Hget].
    destruct Hget as [Hsim Hsame].
    pose proof (sim_node_props nd nd' Hsim) as Hp.
    destruct (node_props nd) as [props|e] eqn:Ep, (node_props nd') as [props'|e'] eqn:Ep';
      simpl in Hp |- *; try contradiction; [|exact Hp].
    pose proof (sim_route_visit nd nd' props props' (override props f) (override props' f')
                  (proj1 (proj2 (proj2 Hsim))) Hp) as Hv.
    destruct (route_visit nd props (override props f)) as [ov|e],
             (route_visit nd' props' (override props' f')) as [ov'|e'];
      simpl in Hv |- *; try contradiction; [|exact Hv].
    pose proof (sim_record_visit (routes st) (routes st') ov ov' Hv) as Hr.
    destruct (record_visit (routes st) ov) as [rt|e],
             (record_visit (routes st') ov') as [rt'|e'];
      simpl in Hr |- *; try contradiction; [|exact Hr].
    rewrite <- Hch. unfold get_default.
    destruct (hashable c); simpl; [|reflexivity].
    unfold sim_state. simpl. split; [exact Hnm|]. split; [reflexivity|].
    split; [rewrite Hg; now apply sim_update_global|].
    apply Forall3_app; [exact Hrest|].
    apply Forall3_map_diag. intros k. split; [reflexivity|]. simpl.
    rewrite existsb_app. simpl. rewrite orb_false_r.
    intros Hu. apply orb_false_iff in Hu as [Hu1 Hu2].
    apply sim_override; [|now apply Hf].
    specialize (Hsame Hu2). subst nd'. congruence.
Qed.

Lemma step_paths_sim st st' ps :
  sim_state ms st st' ps -> step_paths st' ps = step_paths st ps.
Proof.
  intros (_ & Hch & _ & Hq). unfold step_paths. rewrite <- Hch.
  destruct (queue st) as [|[c f] q]; destruct (queue st') as [|[c' f'] q'];
    inversion Hq as [|? ? p ? ? ps' [Hc Hf] Hrest]; subst; simpl in *;
    [reflexivity | now subst].
Qed.

Lemma iter_sim n : forall st st' ps,
  sim_state ms st st' ps ->
  sim_result (fun s s' => sim_state ms s s' (iter_paths n st ps)) (iter n st) (iter n st').
Proof.
  induction n as [|n IH]; intros st st' ps H; simpl; [exact H|].
  pose proof (step_sim st st' ps H) as Hs.
  destruct (step st) as [s1|e], (step st') as [s1'|e']; simpl in Hs |- *;
    try contradiction; [|exact Hs].
  now apply IH.
Qed.

Lemma iter_paths_sim n : forall st st' ps,
  sim_state ms st st' ps -> iter_paths n st' ps = iter_paths n st ps.
Proof.
  induction n as [|n IH]; intros st st' ps H; simpl; [reflexivity|].
  pose proof (step_sim st st' ps H) as Hs.
  destruct (step st) as [s1|e], (step st') as [s1'|e']; simpl in Hs;
    try contradiction; [|reflexivity].
  rewrite (step_paths_sim st st' ps H). now apply IH.
Qed.

(** The next visit contributes the same to the route table in both
    traversals, when no node on the path to it, itself included, is
    among [ms]. *)
Lemma next_visit_sim st st' ps c f q p ps' :
  sim_state ms st st' ps ->
  queue st = (c, f) :: q -> ps = p :: ps' ->
  existsb (touched ms) (p ++ [c]) = false ->
  next_visit st = next_visit st'.
Proof.
  intros (Hnm & _ & _ & Hq) Eq -> Hu. rewrite !next_visit_head.
  rewrite Eq in Hq. inversion Hq as [|? [c' f'] ? ? q' ? [Hc Hf] _ E1 E2]; subst.
  simpl in Hc, Hf. subst c'. rewrite Eq. simpl.
  rewrite existsb_app in Hu. simpl in Hu. rewrite orb_false_r in Hu.
  apply orb_false_iff in Hu as [Hu1 Hu2]. rewrite <- (Hf Hu1).
  unfold visit_of. simpl.
  pose proof (sim_getitem ms _ _ c Hnm) as Hget.
  destruct (getitem (node_map st) c) as [nd|e], (getitem (node_map st') c) as [nd'|e'];
    simpl in Hget; try contradiction; [|reflexivity].
  destruct Hget as [_ Hsame]. now rewrite (Hsame Hu2).
Qed.

Lemma sim_index_values nm nm' :
  sim_index ms nm nm' -> Forall2 sim_node (values nm) (values nm').
Proof.
  unfold values. induction 1 as [|kv kv' nm nm' (_ & H & _) _ IH]; simpl;
    constructor; auto.
Qed.

Lemma sim_entry_nodes nds nds' :
  Forall2 sim_node nds nds' ->
  sim_result (Forall2 sim_node) (entry_nodes nds) (entry_nodes nds').
Proof.
  induction 1 as [|nd nd' nds nds' Hsim _ IH]; simpl; [constructor|].
  rewrite (sim_node_entry nd nd' Hsim).
  destruct (is_entry nd') as [b|e]; simpl; [|reflexivity].
  destruct (entry_nodes nds) as [es|e], (entry_nodes nds') as [es'|e'];
    simpl in IH |- *; try contradiction; [|exact IH].
  destruct b; [constructor|]; assumption.
Qed.

Lemma sim_seed es es' : Forall2 sim_node es es' -> seed es = seed es'.
Proof.
  induction 1 as [|nd nd' es es' Hsim _ IH]; simpl; [reflexivity|].
  now rewrite (sim_node_id nd nd' Hsim), IH.
Qed.

Lemma sim_entry_refl q :
  Forall3 (sim_entry ms) q q (map (fun _ : pyval * flags => @nil pyval) q).
Proof. induction q; simpl; constructor; [split|]; auto. Qed.

Lemma init_sim nm nm' ch :
  sim_index ms nm nm' ->
  sim_result (fun s s' => sim_state ms s s' (seed_paths s)) (init nm ch) (init nm' ch).
Proof.
  intros H. unfold init.
  pose proof (sim_entry_nodes _ _ (sim_index_values _ _ H)) as He.
  destruct (entry_nodes (values nm)) as [es|e], (entry_nodes (values nm')) as [es'|e'];
    simpl in He |- *; try contradiction; [|exact He].
  rewrite (sim_seed es es' He).
  destruct (seed es') as [q|e]; simpl; [|reflexivity].
  unfold sim_state, seed_paths. simpl. repeat split; [exact H|].
  apply sim_entry_refl.
Qed.

End Simulation.

(** * Flag dictionaries as objects

    In the source the queue holds references to flag dictionaries, the
    local override assigns into the dictionary that was taken off the
    queue, and a child is enqueued with [flags.copy()].  This section
    models the dictionaries in a store, and shows that the loop on values
    above computes what the loop on references computes. *)

Section References.

Record rstate := {
  rs_node_map : dict node;
  rs_children : adjacency;
  rs_routes : dict route;
  rs_globals : global_flags;
  rs_store : list flags;
  rs_queue : list (pyval * nat)
}.

(** The dictionary at a reference. *)
Definition read (s : list flags) (l : nat) : flags := default fresh_flags (s !! l).

(** Lines 60-63 on the dictionary at [l]: [flags["auth"] = ...] and
    [flags["admin"] = ...]. *)
Definition ref_override (props : sdict) (l : nat) (s : list flags) : list flags :=
  let s := match sget props "auth_required" with
           | Some v => <[l := {| auth := v; admin := admin (read s l) |}]> s
           | None => s
           end in
  match sget props "admin_required" with
  | Some v => <[l := {| auth := auth (read s l); admin := v |}]> s
  | None => s
  end.

(** Lines 87-89: each child is enqueued with a new dictionary, a copy of
    the one at [l]. *)
Fixpoint fan_out (kids : list pyval) (l : nat) (s : list flags) (q : list (pyval * nat))
  : list flags * list (pyval * nat) :=
  match kids with
  | [] => (s, q)
  | child_id :: rest => fan_out rest l (s ++ [read s l]) (q ++ [(child_id, length s)])
  end.

Definition ref_visit_node (st : rstate) (cur_id : pyval) (l : nat)
    (q : list (pyval * nat)) : result rstate :=
  let* nd := getitem (rs_node_map st) cur_id in
  let* props := node_props nd in
  let g := update_global props (rs_globals st) in
  let s := ref_override props l (rs_store st) in
  let* ov := route_visit nd props (read s l) in
  let* routes' := record_visit (rs_routes st) ov in
  let* kids := get_default (rs_children st) cur_id [] in
  Ok {| rs_node_map := rs_node_map st;
        rs_children := rs_children st;
        rs_routes := routes';
        rs_globals := g;
        rs_store := fst (fan_out kids l s q);
        rs_queue := snd (fan_out kids l s q) |}.

Definition ref_step (st : rstate) : result rstate :=
  match rs_queue st with
  | [] => Ok st
  | (cur_id, l) :: q => ref_visit_node st cur_id l q
  end.

Fixpoint ref_iter (n : nat) (st : rstate) : result rstate :=
  match n with
  | O => Ok st
  | S n' => let* st' := ref_step st in ref_iter n' st'
  end.

Fixpoint ref_run (fuel : nat) (st : rstate) : outcome rstate :=
  match rs_queue st with
  | [] => Done st
  | (cur_id, l) :: q =>
      match fuel with
      | O => OutOfFuel
      | S fuel' =>
          match ref_visit_node st cur_id l q with
          | Ok st' => ref_run fuel' st'
          | Raise e => Failed e
          end
      end
  end.

(** Lines 44-45: every entry node is enqueued with a new dictionary. *)
Fixpoint ref_seed (es : list node) (s : list flags) (q : list (pyval * nat))
  : result (list flags * list (pyval * nat)) :=
  match es with
  | [] => Ok (s, q)
  | nd :: rest =>
      let* id := node_id nd in
      ref_seed rest (s ++ [fresh_flags]) (q ++ [(id, length s)])
  end.

Definition ref_init (nm : dict node) (ch : adjacency) : result rstate :=
  let* es := entry_nodes (values nm) in
  let* sq := ref_seed es [] [] in
  Ok {| rs_node_map := nm; rs_children := ch; rs_routes := [];
        rs_globals := {| cors := false; logging := false |};
        rs_store := fst sq; rs_queue := snd sq |}.

Definition ref_traverse_graph (fuel : nat) (nm : dict node) (ch : adjacency)
  : outcome (dict route * global_flags) :=
  match ref_init nm ch with
  | Raise e => Failed e
  | Ok st =>
      match ref_run fuel st with
      | Done st' => Done (rs_routes st', rs_globals st')
      | Failed e => Failed e
      | OutOfFuel => OutOfFuel
      end
  end.

(** The queue with every reference replaced by the dictionary it
    points to. *)
Definition deref (s : list flags) (q : list (pyval * nat)) : list (pyval * flags) :=
  map (fun e => (fst e, read s (snd e))) q.

Definition abs (st : rstate) : tstate :=
  {| node_map := rs_node_map st;
     children := rs_children st;
     routes := rs_routes st;
     globals := rs_globals st;
     queue := deref (rs_store st) (rs_queue st) |}.

(** No two queue entries share a dictionary, and every reference is
    allocated. *)
Definition unshared (s : list flags) (q : list (pyval * nat)) : Prop :=
  NoDup (map snd q) /\ Forall (fun e => snd e < length s) q.

Lemma read_insert_eq s l f : l < length s -> read (<[l := f]> s) l = f.
Proof. intros H. unfold read. now rewrite list_lookup_insert_eq. Qed.

Lemma read_insert_ne s l l' f : l <> l' -> read (<[l := f]> s) l' = read s l'.
Proof. intros H. unfold read. now rewrite list_lookup_insert_ne. Qed.

Lemma read_app_l s s' l : l < length s -> read (s ++ s') l = read s l.
Proof. intros H. unfold read. now rewrite lookup_app_l. Qed.

Lemma read_app_new s f : read (s ++ [f]) (length s) = f.
Proof.
  unfold read. rewrite lookup_app_r by lia. now rewrite Nat.sub_diag.
Qed.

Lemma ref_override_length props l s : length (ref_override props l s) = length s.
Proof.
  unfold ref_override.
  destruct (sget props "auth_required"), (sget props "admin_required");
    now rewrite ?length_insert.
Qed.

(** The assignment changes the dictionary at [l] as [override] says, and
    no other. *)
Lemma ref_override_read props l s :
  l < length s -> read (ref_override props l s) l = override props (read s l).
Proof.
  intros H. unfold ref_override, override.
  destruct (read s l) as [a b] eqn:E.
  destruct (sget props "auth_required"), (sget props "admin_required"); simpl;
    rewrite ?read_insert_eq by (now rewrite ?length_insert);
    rewrite ?E; simpl; reflexivity.
Qed.

Lemma ref_override_other props l l' s :
  l <> l' -> read (ref_override props l s) l' = read s l'.
Proof.
  intros H. unfold ref_override.
  destruct (sget props "auth_required"), (sget props "admin_required");
    now rewrite ?read_insert_ne.
Qed.

Lemma deref_ext s s' q :
  Forall (fun e => read s' (snd e) = read s (snd e)) q -> deref s' q = deref s q.
Proof.
  unfold deref. induction 1 as [|e q He _ IH]; simpl; [reflexivity|].
  now rewrite He, IH.
Qed.

(** Copies go to new references, so the dictionaries already in the
    queue stay as they are and stay unshared. *)
Lemma fan_out_spec kids : forall l s q,
  l < length s -> unshared s q ->
  deref (fst (fan_out kids l s q)) (snd (fan_out kids l s q))
    = deref s q ++ map (fun child_id => (child_id, read s l)) kids /\
  unshared (fst (fan_out kids l s q)) (snd (fan_out kids l s q)).
Proof.
  induction kids as [|k kids IH]; intros l s q Hl [Hnd Hlt]; simpl.
  - rewrite app_nil_r. split; [reflexivity | split; assumption].
  - destruct (IH l (s ++ [read s l]) (q ++ [(k, length s)])) as [Hd Hu].
    + rewrite length_app. simpl. lia.
    + split.
      * rewrite map_app. simpl. apply NoDup_app. split; [exact Hnd|]. split.
        -- intros x Hx Hx'. apply list_elem_of_singleton in Hx'. subst x.
           apply list_elem_of_fmap in Hx as (e & Hx & He).
           rewrite Forall_forall in Hlt. specialize (Hlt e He). simpl in Hlt. lia.
        -- apply NoDup_singleton.
      * apply Forall_app. split.
        -- eapply Forall_impl; [exact Hlt|]. intros e He. rewrite length_app.
           simpl in *. lia.
        -- constructor; [|constructor]. simpl. rewrite length_app. simpl. lia.
    + split; [|exact Hu]. rewrite Hd. rewrite read_app_l by exact Hl.
      unfold deref at 1. rewrite map_app. simpl. rewrite read_app_new.
      rewrite <- app_assoc. simpl. f_equal.
      apply deref_ext. eapply Forall_impl; [exact Hlt|].
      intros e He. simpl in He. now apply read_app_l.
Qed.

End References.

Section Refinement.

(** A reference-level result and the value-level result it stands for. *)
Definition refines (r : result rstate) (r' : result tstate) : Prop :=
  sim_result (fun h s => s = abs h /\ unshared (rs_store h) (rs_queue h)) r r'.

Lemma ref_step_refines h :
  unshared (rs_store h) (rs_queue h) -> refines (ref_step h) (step (abs h)).
Proof.
  intros [Hnd Hlt]. unfold refines, ref_step, step, abs at 1. simpl.
  destruct (rs_queue h) as [|[c l] q] eqn:Eq; simpl.
  - split; [reflexivity|]. rewrite Eq. split; assumption.
  - unfold ref_visit_node, visit_node. simpl.
    destruct (getitem (rs_node_map h) c) as [nd|e]; simpl; [|reflexivity].
    destruct (node_props nd) as [props|e]; simpl; [|reflexivity].
    inversion Hnd as [|? ? Hnotin Hnd']; subst.
    inversion Hlt as [|? ? Hl Hlt']; subst. simpl in Hl.
    rewrite ref_override_read by exact Hl.
    destruct (route_visit nd props (override props (read (rs_store h) l))) as [ov|e];
      simpl; [|reflexivity].
    destruct (record_visit (rs_routes h) ov) as [rt|e]; simpl; [|reflexivity].
    destruct (get_default (rs_children h) c []) as [kids|e]; simpl; [|reflexivity].
    destruct (fan_out_spec kids l (ref_override props l (rs_store h)) q) as [Hd Hu].
    + now rewrite ref_override_length.
    + split; [exact Hnd'|]. eapply Forall_impl; [exact Hlt'|].
      intros e He. now rewrite ref_override_length.
    + split; [|exact Hu]. unfold abs. simpl. f_equal.
      rewrite Hd, ref_override_read by exact Hl. f_equal.
      symmetry. apply deref_ext. apply Forall_forall. intros e He.
      apply ref_override_other. intros ->. apply Hnotin.
      apply list_elem_of_fmap. eauto.
Qed.

Lemma ref_iter_refines n : forall h,
  unshared (rs_store h) (rs_queue h) -> refines (ref_iter n h) (iter n (abs h)).
Proof.
  induction n as [|n IH]; intros h Hu; simpl.
  - split; [reflexivity | exact Hu].
  - pose proof (ref_step_refines h Hu) as Hs. unfold refines in Hs.
    destruct (ref_step h) as [h1|e], (step (abs h)) as [s1|e']; simpl in Hs |- *;
      try contradiction; [|exact Hs].
    destruct Hs as [-> Hu1]. now apply IH.
Qed.

Lemma ref_run_refines fuel : forall h,
  unshared (rs_store h) (rs_queue h) ->
  match ref_run fuel h with
  | Done h' => run fuel (abs h) = Done (abs h')
  | Failed e => run fuel (abs h) = Failed e
  | OutOfFuel => run fuel (abs h) = OutOfFuel
  end.
Proof.
  induction fuel as [|fuel IH]; intros h Hu;
    pose proof (ref_step_refines h Hu) as Hs;
    unfold refines, ref_step, step in Hs; simpl in *;
    destruct (rs_queue h) as [|[c l] q] eqn:Eq; simpl in *;
    try reflexivity; try (unfold abs; simpl; now rewrite Eq).
  destruct (ref_visit_node h c l q) as [h1|e],
           (visit_node (abs h) c (read (rs_store h) l) (deref (rs_store h) q)) as [s1|e'];
    simpl in Hs; try contradiction; [|now subst].
  destruct Hs as [-> Hu1]. now apply IH.
Qed.

Lemma ref_seed_refines es : forall s q,
  unshared s q ->
  sim_result (fun sq qs => deref (fst sq) (snd sq) = deref s q ++ qs /\
                           unshared (fst sq) (snd sq))
             (ref_seed es s q) (seed es).
Proof.
  induction es as [|nd es IH]; intros s q [Hnd Hlt]; simpl.
  - rewrite app_nil_r. split; [reflexivity | split; assumption].
  - destruct (node_id nd) as [c|e]; simpl; [|reflexivity].
    assert (Hu : unshared (s ++ [fresh_flags]) (q ++ [(c, length s)])).
    { split.
      - rewrite map_app. simpl. apply NoDup_app. split; [exact Hnd|]. split.
        + intros x Hx Hx'. apply list_elem_of_singleton in Hx'. subst x.
          apply list_elem_of_fmap in Hx as (e & Hx & He).
          rewrite Forall_forall in Hlt. specialize (Hlt e He). simpl in Hlt. lia.
        + apply NoDup_singleton.
      - apply Forall_app. split.
        + eapply Forall_impl; [exact Hlt|]. intros e He. rewrite length_app.
          simpl in *. lia.
        + constructor; [|constructor]. simpl. rewrite length_app. simpl. lia. }
    specialize (IH _ _ Hu).
    destruct (ref_seed es (s ++ [fresh_flags]) (q ++ [(c, length s)])) as [sq|e],
             (seed es) as [qs|e']; simpl in IH |- *; try contradiction; [|exact IH].
    destruct IH as [Hd Hu']. split; [|exact Hu']. rewrite Hd.
    unfold deref at 1. rewrite map_app. simpl. rewrite read_app_new.
    rewrite <- app_assoc. simpl. f_equal.
    apply deref_ext. eapply Forall_impl; [exact Hlt|].
    intros e He. simpl in He. now apply read_app_l.
Qed.

Lemma ref_init_refines nm ch : refines (ref_init nm ch) (init nm ch).
Proof.
  unfold refines, ref_init, init.
  destruct (entry_nodes (values nm)) as [es|e]; simpl; [|reflexivity].
  assert (Hu : unshared [] []) by (split; constructor).
  pose proof (ref_seed_refines es [] [] Hu) as Hs.
  destruct (ref_seed es [] []) as [sq|e], (seed es) as [qs|e']; simpl in Hs |- *;
    try contradiction; [|exact Hs].
  destruct Hs as [Hd Hu']. split; [|exact Hu'].
  unfold abs. simpl. now rewrite Hd.
Qed.

(** X12.  The traversal on references, in which the local override
    assigns into the dictionary taken off the queue and every child gets
    a copy, and the traversal on values return the same route table and
    global flags, raise the same error, and run out of fuel alike. *)
Theorem ref_traverse_graph_eq fuel nm ch :
  ref_traverse_graph fuel nm ch = traverse_graph fuel nm ch.
Proof.
  unfold ref_traverse_graph, traverse_graph.
  pose proof (ref_init_refines nm ch) as Hi. unfold refines in Hi.
  destruct (ref_init nm ch) as [h0|e], (init nm ch) as [st0|e']; simpl in Hi;
    try contradiction; [|now subst].
  destruct Hi as [-> Hu]. pose proof (ref_run_refines fuel h0 Hu) as Hr.
  destruct (ref_run fuel h0) as [h| |]; now rewrite Hr.
Qed.

End Refinement.

Section BranchIsolation.

Lemma Forall3_map_lm {A A' B B' C} (P : A' -> B' -> C -> Prop)
    (f : A -> A') (g : B -> B') l k (ps : list C) :
  Forall3 P (map f l) (map g k) ps -> Forall3 (fun x y p => P (f x) (g y) p) l k ps.
Proof.
  revert k ps. induction l as [|x l IH]; intros [|y k] ps H; simpl in H;
    inversion H; subst; constructor; auto.
Qed.

Lemma Forall2_map_l {A A' B} (P : A' -> B -> Prop) (f : A -> A') l (k : list B) :
  Forall2 P (map f l) k -> Forall2 (fun x y => P (f x) y) l k.
Proof.
  revert k. induction l as [|x l IH]; intros [|y k] H; simpl in H;
    inversion H; subst; constructor; auto.
Qed.

Lemma refines_ok_l r s : refines r (Ok s) -> exists h, r = Ok h /\ s = abs h /\
  unshared (rs_store h) (rs_queue h).
Proof. unfold refines. destruct r as [h|e]; simpl; [eauto | tauto]. Qed.

Lemma refines_ok_r h r' : refines (Ok h) r' -> r' = Ok (abs h) /\
  unshared (rs_store h) (rs_queue h).
Proof. unfold refines. destruct r' as [s|e]; simpl; [|tauto]. now intros [-> ?]. Qed.

Lemma sim_result_ok_l {A B} (R : A -> B -> Prop) a r' :
  sim_result R (Ok a) r' -> exists b, r' = Ok b /\ R a b.
Proof. destruct r' as [b|e]; simpl; [eauto | tauto]. Qed.

End BranchIsolation.

(** C5.  Take two node indexes that differ only in the [auth_required]
    and [admin_required] of the nodes with ids [ms], and the same
    adjacency.  The two traversals go through the same number of
    iterations and keep the same queue of node ids, each reached along the
    same path.  No two queue entries share a flag dictionary.  An entry
    whose path goes through none of [ms] holds the same flags in both
    traversals, and when the node itself is not among [ms] either, its
    visit contributes the same to the route table.  The global flags are
    the same. *)
Theorem branch_isolation
    (ms : list pyval) (nm nm' : dict node) (ch : adjacency) (n : nat) (h0 h : rstate) :
  sim_index ms nm nm' ->
  ref_init nm ch = Ok h0 ->
  ref_iter n h0 = Ok h ->
  exists h0' h',
    ref_init nm' ch = Ok h0' /\ ref_iter n h0' = Ok h' /\
    unshared (rs_store h) (rs_queue h) /\ unshared (rs_store h') (rs_queue h') /\
    rs_globals h = rs_globals h' /\
    Forall2 (fun e p => walk nm ch p (fst e))
            (rs_queue h) (iter_paths n (abs h0) (seed_paths (abs h0))) /\
    Forall3 (fun e e' p =>
               fst e = fst e' /\
               (existsb (touched ms) p = false ->
                read (rs_store h) (snd e) = read (rs_store h') (snd e')))
            (rs_queue h) (rs_queue h') (iter_paths n (abs h0) (seed_paths (abs h0))) /\
    (forall c l q p ps,
        rs_queue h = (c, l) :: q ->
        iter_paths n (abs h0) (seed_paths (abs h0)) = p :: ps ->
        existsb (touched ms) (p ++ [c]) = false ->
        next_visit (abs h) = next_visit (abs h')).
Proof.
  intros Hsim Hinit Hiter.
  pose proof (ref_init_refines nm ch) as Hr0. rewrite Hinit in Hr0.
  apply refines_ok_r in Hr0 as [Hi0 Hu0].
  pose proof (init_sim ms nm nm' ch Hsim) as Hs0. rewrite Hi0 in Hs0.
  apply sim_result_ok_l in Hs0 as (s0' & Hi0' & Hst0).
  pose proof (ref_init_refines nm' ch) as Hr0'. rewrite Hi0' in Hr0'.
  apply refines_ok_l in Hr0' as (h0' & Hinit' & -> & Hu0').
  pose proof (ref_iter_refines n h0 Hu0) as Hr. rewrite Hiter in Hr.
  apply refines_ok_r in Hr as [Hit Hu].
  pose proof (iter_sim ms n _ _ _ Hst0) as Hs. rewrite Hit in Hs.
  apply sim_result_ok_l in Hs as (s' & Hit' & Hst).
  pose proof (ref_iter_refines n h0' Hu0') as Hr'. rewrite Hit' in Hr'.
  apply refines_ok_l in Hr' as (h' & Hiter' & -> & Hu').
  exists h0', h'. split; [exact Hinit'|]. split; [exact Hiter'|].
  split; [exact Hu|]. split; [exact Hu'|].
  destruct Hst as (Hnm & Hch & Hg & Hq). simpl in Hg, Hq.
  split; [exact Hg|]. split; [|split].
  - destruct (init_inv _ _ _ Hi0) as (Hn & Hc & _ & _ & es & Hes & Hseed).
    assert (H0 : Forall2 (on_path (node_map (abs h0)) (children (abs h0)))
                         (queue (abs h0)) (seed_paths (abs h0))).
    { rewrite Hn, Hc. apply (seed_on_path nm ch es es); auto. }
    pose proof (iter_on_path n _ _ _ Hit H0) as Hp. rewrite Hn, Hc in Hp.
    simpl in Hp. unfold deref in Hp. apply Forall2_map_l in Hp.
    eapply Forall2_impl; [exact Hp|]. now intros e p [Hw _].
  - unfold deref in Hq. apply Forall3_map_lm in Hq. exact Hq.
  - intros c l q p ps Eq Ep Hun.
    eapply (next_visit_sim ms (abs h) (abs h')); [| | exact Ep | exact Hun].
    + split; [exact Hnm|]. split; [exact Hch|]. split; [exact Hg|]. exact Hq.
    + simpl. rewrite Eq. reflexivity.
Qed.

(** An entry node with two branches; the first branch is changed from
    one that requires an administrator to one that requires
    authentication only. *)
Definition branch_a (props : sdict) : node :=
  [("id", PStr "A"); ("source", PStr "root"); ("target", PStr "a1");
   ("properties", PDict props)].

Definition branch_nodes (props_a : sdict) : list node :=
  [ [("id", PStr "root"); ("target", PList [PStr "A"; PStr "B"])];
    branch_a props_a;
    [("id", PStr "B"); ("source", PStr "root"); ("target", PStr "b1")];
    [("id", PStr "a1"); ("source", PStr "A");
     ("properties", PDict [("endpoint", PStr "/a"); ("method", PStr "GET")])];
    [("id", PStr "b1"); ("source", PStr "B");
     ("properties", PDict [("endpoint", PStr "/b"); ("method", PStr "GET")])] ].

Definition branch_node_map (props_a : sdict) : dict node :=
  match build_graph (branch_nodes props_a) with Ok (nm, _) => nm | Raise _ => [] end.

Definition branch_children : adjacency :=
  Eval vm_compute in
    match build_graph (branch_nodes []) with Ok (_, ch) => ch | Raise _ => [] end.

Definition admin_only : sdict := [("admin_required", PBool true)].
Definition auth_only : sdict := [("admin_required", PBool false); ("auth_required", PBool true)].

Definition branch_init : rstate :=
  Eval vm_compute in
    match ref_init (branch_node_map admin_only) branch_children with
    | Ok h => h
    | Raise _ => {| rs_node_map := []; rs_children := []; rs_routes := [];
                    rs_globals := {| cors := false; logging := false |};
                    rs_store := []; rs_queue := [] |}
    end.

(** The state after the entry node and the two branch nodes were
    visited. *)
Definition branch_state : rstate :=
  Eval vm_compute in
    match ref_iter 3 branch_init with Ok h => h | Raise _ => branch_init end.

Lemma branch_sim_index :
  sim_index [PStr "A"] (branch_node_map admin_only) (branch_node_map auth_only).
Proof.
  unfold sim_index. vm_compute branch_node_map.
  repeat (constructor;
          [ split; [reflexivity|];
            split; [unfold sim_node, sim_props; simpl; repeat split; reflexivity|];
            simpl; intros H; first [reflexivity | discriminate H] | ]).
  constructor.
Defined.

Lemma branch_isolation_witness :
  rs_queue branch_state = [(PStr "a1", 3); (PStr "b1", 4)] /\
  iter_paths 3 (abs branch_init) (seed_paths (abs branch_init))
    = [ [PStr "root"; PStr "A"]; [PStr "root"; PStr "B"] ] /\
  exists h0' h',
    ref_init (branch_node_map auth_only) branch_children = Ok h0' /\
    ref_iter 3 h0' = Ok h' /\
    Forall3 (fun e e' p =>
               fst e = fst e' /\
               (existsb (touched [PStr "A"]) p = false ->
                read (rs_store branch_state) (snd e) = read (rs_store h') (snd e')))
            (rs_queue branch_state) (rs_queue h')
            (iter_paths 3 (abs branch_init) (seed_paths (abs branch_init))).
Proof.
  split; [reflexivity|]. split; [vm_compute; reflexivity|].
  destruct (branch_isolation [PStr "A"] (branch_node_map admin_only)
              (branch_node_map auth_only) branch_children 3 branch_init branch_state)
    as (h0' & h' & Hi & Hit & _ & _ & _ & _ & Hq & _).
  - exact branch_sim_index.
  - vm_compute. reflexivity.
  - vm_compute. reflexivity.
  - exists h0', h'. auto.
Defined.

(** * Termination on acyclic graphs

    The loop has no visited set, so it ends only when the adjacency has
    no cycle below the entry nodes.  With a rank that decreases along
    every edge, and nodes whose visit raises nothing, the number of
    iterations is bounded by the number of paths, and [traverse_graph]
    returns. *)

Section Termination.

Variable nm : dict node.
Variable ch : adjacency.
Variable rank : pyval -> nat.

Definition kids_of (c : pyval) : list pyval := default [] (dict_find ch c).

(** The visit of the node with id [c] raises nothing, whatever flags
    reach it. *)
Definition visitable (c : pyval) : Prop :=
  exists nd props,
    getitem nm c = Ok nd /\ node_props nd = Ok props /\
    forall f, exists ov,
      route_visit nd props f = Ok ov /\
      forall v, ov = Some v -> hashable (v_endpoint v) = true.

Hypothesis rank_decreases : forall c k, In k (kids_of c) -> rank k < rank c.
Hypothesis kids_visitable : forall c k, visitable c -> In k (kids_of c) -> visitable k.

(** The number of visits that taking [c] off the queue leads to, for a
    node of rank at most [r]. *)
Fixpoint weight (r : nat) (c : pyval) : nat :=
  match r with
  | O => 1
  | S r' => 1 + list_sum (map (weight r') (kids_of c))
  end.

Definition queue_weight (q : list (pyval * flags)) : nat :=
  list_sum (map (fun e => weight (rank (fst e)) (fst e)) q).

Lemma list_sum_le {A} (f g : A -> nat) l :
  (forall x, In x l -> f x <= g x) -> list_sum (map f l) <= list_sum (map g l).
Proof.
  induction l as [|x l IH]; intros H; simpl; [lia|].
  pose proof (H x (or_introl eq_refl)).
  assert (list_sum (map f l) <= list_sum (map g l)) by (apply IH; intros; apply H; now right).
  lia.
Qed.

Lemma weight_pos r c : 1 <= weight r c.
Proof. destruct r; simpl; lia. Qed.

Lemma weight_mono r : forall r' c, r <= r' -> weight r c <= weight r' c.
Proof.
  induction r as [|r IH]; intros r' c Hle.
  - apply weight_pos.
  - destruct r' as [|r']; [lia|]. simpl.
    apply le_n_S. apply list_sum_le. intros k _. apply IH. lia.
Qed.

Lemma weight_kids c :
  1 + list_sum (map (fun k => weight (rank k) k) (kids_of c)) <= weight (rank c) c.
Proof.
  destruct (rank c) as [|r] eqn:Er; simpl.
  - destruct (kids_of c) as [|k ks] eqn:Ek; simpl; [lia|].
    pose proof (rank_decreases c k) as H. rewrite Ek, Er in H.
    specialize (H (or_introl eq_refl)). lia.
  - apply le_n_S. apply list_sum_le. intros k Hk. apply weight_mono.
    pose proof (rank_decreases c k Hk). lia.
Qed.

Lemma queue_weight_app q q' : queue_weight (q ++ q') = queue_weight q + queue_weight q'.
Proof. unfold queue_weight. now rewrite map_app, list_sum_app. Qed.

Lemma visitable_visit st c f q :
  node_map st = nm -> children st = ch -> visitable c ->
  exists st',
    visit_node st c f q = Ok st' /\
    node_map st' = nm /\ children st' = ch /\
    exists props, queue st' = q ++ map (fun k => (k, override props f)) (kids_of c).
Proof.
  intros Hn Hc (nd & props & Hnd & Hprops & Hroute).
  destruct (Hroute (override props f)) as (ov & Hov & Hh).
  unfold visit_node. rewrite Hn, Hc, Hnd. simpl. rewrite Hprops. simpl.
  rewrite Hov. simpl.
  assert (Hrec : exists rs', record_visit (routes st) ov = Ok rs').
  { unfold record_visit. destruct ov as [v|]; [|eauto].
    rewrite (Hh v eq_refl). eauto. }
  destruct Hrec as [rs' ->]. simpl.
  unfold get_default. unfold getitem in Hnd.
  destruct (hashable c); [|discriminate]. simpl.
  eexists. split; [reflexivity|]. simpl. repeat split. exists props. reflexivity.
Qed.

Lemma run_terminates fuel : forall st,
  node_map st = nm -> children st = ch ->
  Forall (fun e => visitable (fst e)) (queue st) ->
  queue_weight (queue st) <= fuel ->
  exists st', run fuel st = Done st'.
Proof.
  induction fuel as [|fuel IH]; intros st Hn Hc Hv Hw.
  - destruct (queue st) as [|[c f] q] eqn:Eq.
    + exists st. simpl. now rewrite Eq.
    + unfold queue_weight in Hw. simpl in Hw.
      pose proof (weight_pos (rank c) c). lia.
  - simpl. destruct (queue st) as [|[c f] q] eqn:Eq; [eauto|].
    inversion Hv as [|? ? Hvc Hvq]; subst. simpl in Hvc.
    destruct (visitable_visit st c f q Hn Hc Hvc) as (st1 & -> & Hn1 & Hc1 & props & Hq1).
    apply IH; [exact Hn1 | exact Hc1 | |]; rewrite Hq1.
    + apply Forall_app. split; [exact Hvq|].
      apply Forall_forall. intros e He.
      apply list_elem_of_In, in_map_iff in He as (k & <- & Hk). simpl.
      now apply (kids_visitable c k).
    + rewrite queue_weight_app. unfold queue_weight at 2. rewrite map_map. simpl.
      unfold queue_weight in Hw. simpl in Hw.
      pose proof (weight_kids c). unfold queue_weight. lia.
Qed.


End Termination.

(** Ranks for the two-node graph [revisit_nodes], whose one edge goes
    from [gate] to [home]. *)
Definition revisit_rank (c : pyval) : nat :=
  if key_eqb (PStr "gate") c then 1 else 0.

Lemma revisit_kids c :
  kids_of revisit_children c = if key_eqb (PStr "gate") c then [PStr "home"] else [].
Proof.
  unfold kids_of, revisit_children. simpl. now destruct (key_eqb (PStr "gate") c).
Qed.

Lemma revisit_visitable_home : visitable revisit_node_map (PStr "home").
Proof.
  eexists _, _. split; [vm_compute; reflexivity|]. split; [vm_compute; reflexivity|].
  intros f. eexists. split; [reflexivity|]. now intros v [= <-].
Qed.

Lemma revisit_visitable_gate : visitable revisit_node_map (PStr "gate").
Proof.
  eexists _, _. split; [vm_compute; reflexivity|]. split; [vm_compute; reflexivity|].
  intros f. exists None. split; [reflexivity|]. discriminate.
Qed.


(** * Further properties of the traversal *)

(** ** No entry nodes *)

(** X1.  When no node of the index is an entry node, in particular when
    the index is empty, the loop body is never entered: [traverse_graph]
    returns the empty route table and both global flags false, with any
    bound on the iterations, cycles in the adjacency or not. *)
Theorem no_entry_nodes_empty_result (fuel : nat) (nm : dict node) (ch : adjacency) :
  entry_nodes (values nm) = Ok [] ->
  traverse_graph fuel nm ch = Done ([], {| cors := false; logging := false |}).
Proof.
  intros H. unfold traverse_graph, init. rewrite H. simpl. now destruct fuel.
Qed.

(** Two nodes that point at each other, each with a source. *)
Definition closed_loop_nodes : list node :=
  [ [("id", PInt 1); ("source", PInt 2); ("target", PInt 2);
     ("properties", PDict [("endpoint", PStr "/a"); ("method", PStr "GET")])];
    [("id", PInt 2); ("source", PInt 1); ("target", PInt 1)] ].

Definition closed_loop_node_map : dict node :=
  Eval vm_compute in
    match build_graph closed_loop_nodes with Ok (nm, _) => nm | Raise _ => [] end.

Definition closed_loop_children : adjacency :=
  Eval vm_compute in
    match build_graph closed_loop_nodes with Ok (_, ch) => ch | Raise _ => [] end.

Lemma no_entry_nodes_empty_result_witness :
  traverse_graph 0 closed_loop_node_map closed_loop_children
    = Done ([], {| cors := false; logging := false |}).
Proof.
  apply (no_entry_nodes_empty_result 0 closed_loop_node_map closed_loop_children).
  vm_compute. reflexivity.
Defined.

(** ** Cycles *)

Section Cycles.

Variable ch : adjacency.

(** A set of ids each of which has a child in the set. *)
Variable on_cycle : pyval -> bool.
Hypothesis cycle_closed :
  forall c, on_cycle c = true -> exists k, In k (kids_of ch c) /\ on_cycle k = true.

(** The queue holds an entry for a node of the set. *)
Definition holds_cycle (q : list (pyval * flags)) : Prop :=
  exists e, In e q /\ on_cycle (fst e) = true.

Lemma step_holds_cycle st st' :
  children st = ch -> step st = Ok st' ->
  holds_cycle (queue st) -> holds_cycle (queue st').
Proof.
  intros Hch Hstep (e & Hin & He). unfold step in Hstep.
  destruct (queue st) as [|[c f] q]; [destruct Hin|].
  apply visit_node_inv in Hstep
    as (nd & props & ov & kids & _ & _ & _ & _ & Hkids & _ & _ & _ & ->).
  destruct Hin as [<-|Hin].
  - simpl in He. destruct (cycle_closed c He) as (k & Hk & Hon).
    unfold get_default in Hkids. destruct (hashable c); [|discriminate].
    injection Hkids as <-. rewrite Hch.
    exists (k, override props f). split; [|exact Hon].
    apply in_app_iff. right.
    now apply (in_map (fun child_id => (child_id, override props f))).
  - exists e. split; [|exact He]. apply in_app_iff. now left.
Qed.

Lemma iter_holds_cycle n : forall st st',
  children st = ch -> iter n st = Ok st' ->
  holds_cycle (queue st) -> holds_cycle (queue st').
Proof.
  induction n as [|n IH]; intros st st' Hch H Hq; simpl in H.
  - now injection H as <-.
  - bind_case H st1 E. apply (IH st1 st'); [|exact H|].
    + destruct (step_frame _ _ E) as [_ ->]. exact Hch.
    + exact (step_holds_cycle st st1 Hch E Hq).
Qed.

(** X3.  The loop has no visited set.  Once the queue holds a node of a
    cycle, it holds one after every later iteration, so the queue never
    runs empty: [traverse_graph] fails or runs out of fuel, with every
    bound on the iterations, and never returns a route table. *)
Theorem cycle_never_returns
    (nm : dict node) (n fuel : nat) (st0 st : tstate) :
  init nm ch = Ok st0 ->
  iter n st0 = Ok st ->
  holds_cycle (queue st) ->
  match traverse_graph fuel nm ch with
  | Done _ => False
  | Failed _ | OutOfFuel => True
  end.
Proof.
  intros Hinit Hn Hq.
  destruct (traverse_graph fuel nm ch) as [[rt g]| |] eqn:Hrun; [|exact I|exact I].
  apply traverse_graph_inv in Hrun as (st0' & stf & Hinit' & Hf & Hqf & _).
  rewrite Hinit in Hinit'. injection Hinit' as <-.
  destruct (init_inv _ _ _ Hinit) as (_ & Hch & _).
  assert (Hend : holds_cycle (queue stf)).
  { destruct (Nat.le_ge_cases n fuel) as [Hle|Hge].
    - destruct (iter_prefix n fuel st0 stf Hle Hf) as (st1 & Hn' & Hrest).
      rewrite Hn in Hn'. injection Hn' as <-.
      eapply iter_holds_cycle; [|exact Hrest|exact Hq].
      destruct (iter_frame _ _ _ Hn) as [_ ->]. exact Hch.
    - destruct (iter_prefix fuel n st0 st Hge Hn) as (st1 & Hf' & Hrest).
      rewrite Hf in Hf'. injection Hf' as <-.
      rewrite iter_done in Hrest by exact Hqf. now injection Hrest as <-. }
  destruct Hend as (e & Hin & _). rewrite Hqf in Hin. destruct Hin.
Qed.

End Cycles.

(** An entry node whose only edge leads back to itself. *)
Definition self_loop_nodes : list node := [ [("id", PInt 1); ("target", PInt 1)] ].

Definition self_loop_node_map : dict node :=
  Eval vm_compute in
    match build_graph self_loop_nodes with Ok (nm, _) => nm | Raise _ => [] end.

Definition self_loop_children : adjacency :=
  Eval vm_compute in
    match build_graph self_loop_nodes with Ok (_, ch) => ch | Raise _ => [] end.

Definition self_loop_init : tstate :=
  Eval vm_compute in
    match init self_loop_node_map self_loop_children with
    | Ok st => st
    | Raise _ => {| node_map := []; children := []; routes := [];
                    globals := {| cors := false; logging := false |}; queue := [] |}
    end.

Lemma cycle_never_returns_witness :
  match traverse_graph 1000 self_loop_node_map self_loop_children with
  | Done _ => False
  | Failed _ | OutOfFuel => True
  end.
Proof.
  apply (cycle_never_returns self_loop_children (key_eqb (PInt 1))
           ltac:(intros c Hc; exists (PInt 1); unfold kids_of; simpl; rewrite Hc;
                 split; [now left | reflexivity])
           self_loop_node_map 0 1000 self_loop_init self_loop_init).
  - vm_compute. reflexivity.
  - reflexivity.
  - exists (PInt 1, fresh_flags). split; [now left | reflexivity].
Defined.

(** ** What a completed traversal has visited *)

Section Visited.

(** Every entry that was taken off the queue belongs to a node of the
    index whose properties could be read. *)
Lemma dequeued_visited n : forall st st' c f,
  iter n st = Ok st' -> In (c, f) (dequeued n st) ->
  is_Some (props_at (node_map st) c).
Proof.
  induction n as [|n IH]; intros st st' c f H Hin; simpl in *; [destruct Hin|].
  bind_case H st1 E. apply in_app_iff in Hin as [Hin|Hin].
  - unfold step in E. destruct (queue st) as [|[c' f'] q]; simpl in Hin; [destruct Hin|].
    destruct Hin as [[= -> ->]|[]].
    apply visit_node_inv in E as (nd & props & _ & _ & Hnd & Hprops & _).
    unfold props_at. rewrite Hnd, Hprops. eauto.
  - destruct (step_frame _ _ E) as [<- _]. eauto.
Qed.

(** Every entry that was taken off the queue was reached along a path
    from an entry node. *)
Lemma dequeued_walk n : forall st st' ps e,
  iter n st = Ok st' ->
  Forall2 (on_path (node_map st) (children st)) (queue st) ps ->
  In e (dequeued n st) ->
  exists p, walk (node_map st) (children st) p (fst e).
Proof.
  induction n as [|n IH]; intros st st' ps e H Hinv Hin; simpl in *; [destruct Hin|].
  bind_case H st1 E. apply in_app_iff in Hin as [Hin|Hin].
  - destruct (queue st) as [|e0 q]; simpl in Hin; [destruct Hin|].
    destruct Hin as [<-|[]]. inversion Hinv as [|? p ? ? [Hw _] _]; subst. eauto.
  - pose proof (step_on_path _ _ _ E Hinv) as Hinv1.
    destruct (step_frame _ _ E) as [En Ec]. rewrite <- En, <- Ec in Hinv1 |- *.
    eapply IH; eauto.
Qed.

(** In a drained traversal every path from an entry node was walked: its
    end was taken off the queue. *)
Lemma completed_walk nm ch fuel st0 stf p c :
  init nm ch = Ok st0 -> iter fuel st0 = Ok stf -> queue stf = [] ->
  walk nm ch p c ->
  exists f, In (c, f) (dequeued fuel st0).
Proof.
  intros Hinit Hiter Hq Hw.
  destruct (init_inv _ _ _ Hinit) as (Hn & Hch & _ & _ & es & Hes & Hseed).
  pose proof (iter_queue _ _ _ Hiter) as Hfifo. rewrite Hq, app_nil_r in Hfifo.
  induction Hw as [es' nd id Hes' Hnd Hid | p a c Hw IH Hprops Hc].
  - exists fresh_flags. rewrite Hfifo. apply in_app_iff. left.
    rewrite Hes in Hes'. injection Hes' as <-. eapply seed_In; eauto.
  - destruct IH as [f Hin]. destruct Hprops as [props Hprops].
    exists (override props f). rewrite Hfifo. apply in_app_iff. right.
    eapply dequeued_children; [exact Hiter | exact Hin | now rewrite Hn | now rewrite Hch].
Qed.

Lemma iter_globals_log n : forall st st',
  iter n st = Ok st' ->
  cors (globals st') =
    cors (globals st) ||
    existsb (fun e => has_key (default [] (props_at (node_map st) (fst e))) "allowed_origins")
            (dequeued n st) /\
  logging (globals st') =
    logging (globals st) ||
    existsb (fun e => truthy (default PNone
                                (sget (default [] (props_at (node_map st) (fst e)))
                                      "log_requests")))
            (dequeued n st).
Proof.
  induction n as [|n IH]; intros st st' H; simpl in *.
  - injection H as <-. now rewrite !orb_false_r.
  - bind_case H st1 E. destruct (IH _ _ H) as [-> ->].
    destruct (step_frame _ _ E) as [-> _]. rewrite !existsb_app, !orb_assoc.
    unfold step in E. destruct (queue st) as [|[c f] q]; simpl.
    + injection E as <-. now rewrite !orb_false_r.
    + apply visit_node_inv in E
        as (nd & props & _ & _ & Hnd & Hprops & _ & _ & _ & _ & _ & -> & _).
      unfold props_at. rewrite Hnd, Hprops. simpl.
      destruct (update_global_eq props (globals st)) as [-> ->].
      now rewrite !orb_false_r.
Qed.

End Visited.


Lemma demo_walk_news : walk demo_node_map demo_children [PInt 1; PInt 3] (PInt 4).
Proof.
  apply (walk_child demo_node_map demo_children [PInt 1] (PInt 3) (PInt 4)).
  - apply (walk_child demo_node_map demo_children [] (PInt 1) (PInt 3)).
    + eapply walk_entry; [vm_compute; reflexivity | left; reflexivity | reflexivity].
    + vm_compute. eauto.
    + vm_compute. right. left. reflexivity.
  - vm_compute. eauto.
  - vm_compute. left. reflexivity.
Defined.


(** The global flags of a completed traversal, from the nodes that can be
    reached. *)
Lemma completed_globals
    (fuel : nat) (nm : dict node) (ch : adjacency) (rt : dict route) (g : global_flags) :
  traverse_graph fuel nm ch = Done (rt, g) ->
  (cors g = true <->
   exists p c props,
     walk nm ch p c /\ props_at nm c = Some props /\
     has_key props "allowed_origins" = true) /\
  (logging g = true <->
   exists p c props,
     walk nm ch p c /\ props_at nm c = Some props /\
     truthy (default PNone (sget props "log_requests")) = true).
Proof.
  intros Hrun.
  apply traverse_graph_inv in Hrun as (st0 & stf & Hinit & Hiter & Hq & _ & <-).
  destruct (init_inv _ _ _ Hinit) as (Hn & Hch & _ & Hg & es & Hes & Hseed).
  destruct (iter_globals_log _ _ _ Hiter) as [Hc Hl].
  rewrite Hg, Hn in Hc, Hl. simpl in Hc, Hl. rewrite Hc, Hl.
  assert (H0 : Forall2 (on_path (node_map st0) (children st0)) (queue st0) (seed_paths st0)).
  { rewrite Hn, Hch. apply (seed_on_path nm ch es es); auto. }
  assert (Hreach : forall e, In e (dequeued fuel st0) ->
            exists p props, walk nm ch p (fst e) /\ props_at nm (fst e) = Some props).
  { intros [c f] Hin.
    destruct (dequeued_walk _ _ _ _ _ Hiter H0 Hin) as [p Hw].
    destruct (dequeued_visited _ _ _ _ _ Hiter Hin) as [props Hp].
    rewrite Hn, Hch in Hw. rewrite Hn in Hp. eauto. }
  split; rewrite existsb_exists; split.
  - intros (e & Hin & He). destruct (Hreach e Hin) as (p & props & Hw & Hp).
    rewrite Hp in He. eauto 6.
  - intros (p & c & props & Hw & Hp & Hk).
    destruct (completed_walk _ _ _ _ _ _ _ Hinit Hiter Hq Hw) as [f Hin].
    exists (c, f). split; [exact Hin|]. simpl. now rewrite Hp.
  - intros (e & Hin & He). destruct (Hreach e Hin) as (p & props & Hw & Hp).
    rewrite Hp in He. eauto 6.
  - intros (p & c & props & Hw & Hp & Hk).
    destruct (completed_walk _ _ _ _ _ _ _ Hinit Hiter Hq Hw) as [f Hin].
    exists (c, f). split; [exact Hin|]. simpl. now rewrite Hp.
Qed.

(** X6.  The global flags [traverse_graph] returns are decided by the
    nodes that can be reached from an entry node, and by no other node:
    [cors] is true exactly when one of them has the key
    [allowed_origins], and [logging] exactly when one of them has a
    truthy [log_requests]. *)
Theorem global_flags_of_reachable_nodes
    (fuel : nat) (nm : dict node) (ch : adjacency) (rt : dict route) (g : global_flags) :
  traverse_graph fuel nm ch = Done (rt, g) ->
  (cors g = true <->
   exists p c props,
     walk nm ch p c /\ props_at nm c = Some props /\
     has_key props "allowed_origins" = true) /\
  (logging g = true <->
   exists p c props,
     walk nm ch p c /\ props_at nm c = Some props /\
     truthy (default PNone (sget props "log_requests")) = true).
Proof. exact (completed_globals fuel nm ch rt g). Qed.

Lemma global_flags_of_reachable_nodes_witness :
  logging demo_globals = true <->
  exists p c props,
    walk demo_node_map demo_children p c /\ props_at demo_node_map c = Some props /\
    truthy (default PNone (sget props "log_requests")) = true.
Proof.
  apply (global_flags_of_reachable_nodes 7 demo_node_map demo_children
           demo_route_table demo_globals).
  vm_compute. reflexivity.
Defined.

(** ** Breadth-first order *)

Section BreadthFirst.

(** The depths of the queue entries span at most two consecutive
    levels, the shallower one in front. *)
Definition leveled (ps : list (list pyval)) : Prop :=
  exists d a b, map length ps = replicate a d ++ replicate b (S d).

Lemma replicate_snoc_many {A} (x : A) a b :
  replicate a x ++ replicate b x = replicate (a + b) x.
Proof. induction a; simpl; [reflexivity | now f_equal]. Qed.

Lemma map_length_const (p : list pyval) (c : pyval) (kids : list pyval) :
  map length (map (fun _ : pyval => p ++ [c]) kids)
    = replicate (length kids) (S (length p)).
Proof.
  induction kids as [|k kids IH]; simpl; [reflexivity|].
  rewrite IH, length_app. simpl. f_equal. lia.
Qed.

(** One iteration keeps the levels, and does not bring a shallower
    entry to the front. *)
Lemma step_paths_leveled st ps :
  leveled ps ->
  leveled (step_paths st ps) /\
  forall p rest p' rest',
    ps = p :: rest -> step_paths st ps = p' :: rest' -> length p <= length p'.
Proof.
  intros (d & a & b & H). unfold step_paths.
  destruct (queue st) as [|[c f] q]; [|destruct ps as [|p0 ps0]].
  - split; [now exists d, a, b|]. intros p rest p' rest' -> [= -> ->]. lia.
  - split; [now exists d, a, b|]. discriminate.
  - simpl in H. set (kids := default [] (dict_find (children st) c)).
    assert (Hk := map_length_const p0 c kids).
    destruct a as [|a]; simpl in H.
    + destruct b as [|b]; simpl in H; [discriminate|].
      injection H as Hp0 Hps0. split.
      * exists (S d), b, (length kids). now rewrite map_app, Hk, Hps0, Hp0.
      * intros p rest p' rest' [= <- <-] Hstep.
        assert (Hl : map length (ps0 ++ map (fun _ : pyval => p0 ++ [c]) kids)
                     = map length (p' :: rest')) by now rewrite Hstep.
        rewrite map_app, Hk, Hps0, Hp0 in Hl. simpl in Hl.
        destruct b; simpl in Hl; [destruct kids; simpl in Hl|];
          try discriminate; injection Hl as Hl _; lia.
    + injection H as Hp0 Hps0. split.
      * exists d, a, (b + length kids).
        rewrite map_app, Hk, Hps0, Hp0, <- app_assoc. f_equal.
        apply replicate_snoc_many.
      * intros p rest p' rest' [= <- <-] Hstep.
        assert (Hl : map length (ps0 ++ map (fun _ : pyval => p0 ++ [c]) kids)
                     = map length (p' :: rest')) by now rewrite Hstep.
        rewrite map_app, Hk, Hps0, Hp0 in Hl. simpl in Hl.
        destruct a; simpl in Hl; [destruct b; simpl in Hl; [destruct kids; simpl in Hl|]|];
          try discriminate; injection Hl as Hl _; lia.
Qed.

Lemma iter_paths_nil n : forall st, iter_paths n st [] = [].
Proof.
  induction n as [|n IH]; intros st; simpl; [reflexivity|].
  destruct (step st) as [st1|]; [|reflexivity].
  unfold step_paths. destruct (queue st) as [|[c f] q]; apply IH.
Qed.

Lemma iter_paths_leveled n : forall st ps,
  leveled ps ->
  leveled (iter_paths n st ps) /\
  forall p rest p' rest',
    ps = p :: rest -> iter_paths n st ps = p' :: rest' -> length p <= length p'.
Proof.
  induction n as [|n IH]; intros st ps Hl; simpl.
  - split; [exact Hl|]. intros p rest p' rest' -> [= -> ->]. lia.
  - destruct (step st) as [st1|].
    + destruct (step_paths_leveled st ps Hl) as [Hl1 Hhd1].
      destruct (IH st1 _ Hl1) as [Hl2 Hhd2]. split; [exact Hl2|].
      intros p rest p' rest' Hps Hit.
      destruct (step_paths st ps) as [|p1 rest1] eqn:Es.
      * rewrite iter_paths_nil in Hit. discriminate.
      * specialize (Hhd1 p rest p1 rest1 Hps eq_refl).
        specialize (Hhd2 p1 rest1 p' rest' eq_refl Hit). lia.
    + split; [exact Hl|]. intros p rest p' rest' -> [= -> ->]. lia.
Qed.

Lemma iter_paths_add n : forall m st ps,
  iter_paths (n + m) st ps =
  match iter n st with
  | Ok st' => iter_paths m st' (iter_paths n st ps)
  | Raise _ => iter_paths n st ps
  end.
Proof.
  induction n as [|n IH]; intros m st ps; simpl; [reflexivity|].
  destruct (step st) as [st1|]; simpl; [apply IH | reflexivity].
Qed.

Lemma seed_paths_leveled st : leveled (seed_paths st).
Proof.
  exists 0, (length (queue st)), 0. unfold seed_paths. rewrite app_nil_r.
  induction (queue st); simpl; [reflexivity | now f_equal].
Qed.

End BreadthFirst.

(** X5.  The traversal is breadth first.  With the depth of a queue
    entry the number of nodes on the path that led to it: after any
    number of iterations the queue lists its entries beside their paths,
    the depths in the queue are some [d] and then [d + 1], and the entry
    at the front is never shallower than the entry that was at the front
    at an earlier iteration; so every node at one depth is visited before
    any node at the next. *)
Theorem breadth_first_order (nm : dict node) (ch : adjacency) (st0 : tstate) :
  init nm ch = Ok st0 ->
  (forall n st,
      iter n st0 = Ok st ->
      Forall2 (fun e p => walk nm ch p (fst e))
              (queue st) (iter_paths n st0 (seed_paths st0))) /\
  (forall n, exists d a b,
      map length (iter_paths n st0 (seed_paths st0))
        = replicate a d ++ replicate b (S d)) /\
  (forall n m p rest p' rest',
      n <= m ->
      iter_paths n st0 (seed_paths st0) = p :: rest ->
      iter_paths m st0 (seed_paths st0) = p' :: rest' ->
      length p <= length p').
Proof.
  intros Hinit. split; [|split].
  - intros n st Hiter.
    destruct (init_inv _ _ _ Hinit) as (Hn & Hc & _ & _ & es & Hes & Hseed).
    assert (H0 : Forall2 (on_path (node_map st0) (children st0))
                         (queue st0) (seed_paths st0)).
    { rewrite Hn, Hc. apply (seed_on_path nm ch es es); auto. }
    pose proof (iter_on_path n st0 st _ Hiter H0) as H. rewrite Hn, Hc in H.
    eapply Forall2_impl; [exact H|]. now intros e p [Hw _].
  - intros n. apply (iter_paths_leveled n st0 _ (seed_paths_leveled st0)).
  - intros n m p rest p' rest' Hle Hp Hp'.
    replace m with (n + (m - n)) in Hp' by lia. rewrite iter_paths_add in Hp'.
    destruct (iter n st0) as [st|].
    + destruct (iter_paths_leveled n st0 _ (seed_paths_leveled st0)) as [Hl _].
      destruct (iter_paths_leveled (m - n) st _ Hl) as [_ Hhd].
      exact (Hhd p rest p' rest' Hp Hp').
    + rewrite Hp in Hp'. injection Hp' as <- _. lia.
Qed.

Lemma breadth_first_order_witness :
  iter_paths 1 demo_init (seed_paths demo_init) = [ [PInt 1]; [PInt 1] ] /\
  iter_paths 5 demo_init (seed_paths demo_init) = [ [PInt 1; PInt 2; PInt 4];
                                                    [PInt 1; PInt 3; PInt 4] ] /\
  length [PInt 1] <= length [PInt 1; PInt 2; PInt 4].
Proof.
  destruct (breadth_first_order demo_node_map demo_children demo_init) as (_ & _ & H).
  - vm_compute. reflexivity.
  - split; [vm_compute; reflexivity|]. split; [vm_compute; reflexivity|].
    apply (H 1 5 [PInt 1] [ [PInt 1] ] [PInt 1; PInt 2; PInt 4]
             [ [PInt 1; PInt 3; PInt 4] ]).
    + lia.
    + vm_compute. reflexivity.
    + vm_compute. reflexivity.
Defined.

(** ** Invariants of the route table *)

Section RouteTable.

(** What the traversal may do to a stored record: nothing to its method
    and name, and nothing to a flag that is truthy. *)
Definition kept (r r' : route) : Prop :=
  method r' = method r /\ name r' = name r /\
  (truthy (r_auth r) = true -> r_auth r' = r_auth r) /\
  (truthy (r_admin r) = true -> r_admin r' = r_admin r).

Lemma kept_refl r : kept r r.
Proof. unfold kept. auto. Qed.

Lemma kept_trans r1 r2 r3 : kept r1 r2 -> kept r2 r3 -> kept r1 r3.
Proof.
  intros (Hm & Hn & Ha & Hb) (Hm' & Hn' & Ha' & Hb'). unfold kept.
  split; [congruence|]. split; [congruence|]. split; intros Ht.
  - rewrite <- (Ha Ht). apply Ha'. now rewrite (Ha Ht).
  - rewrite <- (Hb Ht). apply Hb'. now rewrite (Hb Ht).
Qed.

Lemma kept_widen r v : kept r (widen r v).
Proof.
  unfold kept, widen, py_or. simpl. repeat split; now intros ->.
Qed.

Lemma step_kept st st' k r :
  step st = Ok st' -> dict_find (routes st) k = Some r ->
  exists r', dict_find (routes st') k = Some r' /\ kept r r'.
Proof.
  intros Hstep Hfind. destruct (step_routes _ _ Hstep) as [-> Hh].
  destruct (next_visit st) as [v|]; simpl in *.
  - inversion Hh as [|? ? Hv _]; subst. rewrite merge_find, Hfind by exact Hv.
    destruct (key_eqb (v_endpoint v) k); eexists; split; try reflexivity.
    + apply kept_widen.
    + apply kept_refl.
  - exists r. split; [exact Hfind | apply kept_refl].
Qed.

Lemma iter_kept n : forall st st' k r,
  iter n st = Ok st' -> dict_find (routes st) k = Some r ->
  exists r', dict_find (routes st') k = Some r' /\ kept r r'.
Proof.
  induction n as [|n IH]; intros st st' k r H Hfind; simpl in H.
  - injection H as <-. exists r. split; [exact Hfind | apply kept_refl].
  - bind_case H st1 E. destruct (step_kept _ _ _ _ E Hfind) as (r1 & Hf1 & Hk1).
    destruct (IH _ _ _ _ H Hf1) as (r' & Hf' & Hk'). exists r'.
    split; [exact Hf' | exact (kept_trans _ _ _ Hk1 Hk')].
Qed.

(** Methods are stored in lower case. *)
Lemma lower_ascii_idem c : lower_ascii (lower_ascii c) = lower_ascii c.
Proof. destruct c as [[] [] [] [] [] [] [] []]; reflexivity. Qed.

Lemma lower_idem s : lower (lower s) = lower s.
Proof. induction s as [|c s IH]; simpl; [reflexivity|]. now rewrite lower_ascii_idem, IH. Qed.

Definition lower_methods (rs : dict route) : Prop :=
  forall k r, In (k, r) rs -> lower (method r) = method r.

Lemma merge_lower_methods rs v :
  lower_methods rs -> lower (v_method v) = v_method v -> lower_methods (merge rs v).
Proof.
  intros Hrs Hv k r Hin. unfold merge in Hin.
  destruct (dict_find rs (v_endpoint v)) as [r0|] eqn:Ef;
    apply In_dict_set in Hin as [Hin|[-> _]]; try (now apply (Hrs k r)).
  - simpl. apply dict_find_In in Ef as (k' & Hin' & _). now apply (Hrs k' r0).
  - exact Hv.
Qed.

Lemma step_lower_methods st st' :
  step st = Ok st' -> lower_methods (routes st) -> lower_methods (routes st').
Proof.
  unfold step. destruct (queue st) as [|[c f] q].
  - now intros [= <-].
  - intros H Hl. apply visit_node_inv in H
      as (nd & props & ov & kids & _ & _ & Hv & Hrec & _).
    destruct ov as [v|]; simpl in Hrec.
    + destruct (hashable (v_endpoint v)); [|discriminate].
      injection Hrec as <-. apply merge_lower_methods; [exact Hl|].
      apply route_visit_inv in Hv as (ep & s & _ & _ & ->). simpl.
      apply lower_idem.
    + now injection Hrec as <-.
Qed.

Lemma iter_lower_methods n : forall st st',
  iter n st = Ok st' -> lower_methods (routes st) -> lower_methods (routes st').
Proof.
  induction n as [|n IH]; intros st st' H Hl; simpl in H.
  - now injection H as <-.
  - bind_case H st1 E. eapply IH; [exact H|]. eapply step_lower_methods; eauto.
Qed.

End RouteTable.

(** X7.  Route records are only ever widened.  An endpoint that has a
    record after some iterations has one after any larger number of
    them, with the same method and name; an auth value that is truthy is
    never replaced, and neither is a truthy admin value. *)
Theorem route_records_only_widen
    (n m : nat) (st0 st st' : tstate) (k : pyval) (r : route) :
  n <= m ->
  iter n st0 = Ok st ->
  iter m st0 = Ok st' ->
  dict_find (routes st) k = Some r ->
  exists r',
    dict_find (routes st') k = Some r' /\
    method r' = method r /\ name r' = name r /\
    (truthy (r_auth r) = true -> r_auth r' = r_auth r) /\
    (truthy (r_admin r) = true -> r_admin r' = r_admin r).
Proof.
  intros Hle Hn Hm Hfind.
  destruct (iter_prefix n m st0 st' Hle Hm) as (st1 & Hn' & Hrest).
  rewrite Hn in Hn'. injection Hn' as <-.
  exact (iter_kept _ _ _ _ _ Hrest Hfind).
Qed.

Lemma route_records_only_widen_witness :
  exists r',
    dict_find (routes demo_final) (PStr "/user") = Some r' /\
    method r' = "get" /\ name r' = PStr "User" /\
    (truthy (PBool true) = true -> r_auth r' = PBool true) /\
    (truthy (PBool false) = true -> r_admin r' = PBool false).
Proof.
  apply (route_records_only_widen 3 7 demo_init demo_after_branches demo_final
           (PStr "/user")
           {| method := "get"; name := PStr "User";
              r_auth := PBool true; r_admin := PBool false |}).
  - lia.
  - vm_compute. reflexivity.
  - vm_compute. reflexivity.
  - vm_compute. reflexivity.
Defined.



(** ** Dictionaries have one binding per key *)

Section UniqueKeys.

Context {V : Type}.

(** Every key is hashable and bound once, up to Python's equality. *)
Fixpoint well_formed (d : dict V) : Prop :=
  match d with
  | [] => True
  | (k, _) :: d' => hashable k = true /\ dict_find d' k = None /\ well_formed d'
  end.

(** No two positions hold equal keys. *)
Definition unique_keys (d : dict V) : Prop :=
  forall i j kv kv',
    d !! i = Some kv -> d !! j = Some kv' ->
    key_eqb (fst kv) (fst kv') = true -> i = j.

Lemma dict_set_well_formed (d : dict V) k v :
  hashable k = true -> well_formed d -> well_formed (dict_set d k v).
Proof.
  intros Hk. induction d as [|[k0 v0] d IH]; simpl.
  - auto.
  - intros (Hk0 & Hf & Hd). destruct (key_eqb k0 k) eqn:E; simpl.
    + auto.
    + split; [exact Hk0|]. split; [|now apply IH].
      rewrite dict_find_set by exact Hk. now rewrite key_eqb_sym, E.
Qed.

Lemma find_None_lookup (d : dict V) k j kv :
  dict_find d k = None -> d !! j = Some kv -> key_eqb (fst kv) k = false.
Proof.
  revert j. induction d as [|[k0 v0] d IH]; intros j Hf Hj; [discriminate|].
  simpl in Hf. destruct (key_eqb k0 k) eqn:E; [discriminate|].
  destruct j as [|j]; simpl in Hj.
  - now injection Hj as <-.
  - eauto.
Qed.

Lemma well_formed_unique (d : dict V) : well_formed d -> unique_keys d.
Proof.
  induction d as [|[k0 v0] d IH]; intros Hwf i j kv kv' Hi Hj He.
  - discriminate.
  - destruct Hwf as (_ & Hf & Hd). destruct i as [|i], j as [|j]; simpl in Hi, Hj.
    + reflexivity.
    + injection Hi as <-. simpl in He.
      rewrite key_eqb_sym, (find_None_lookup d k0 j kv' Hf Hj) in He. discriminate.
    + injection Hj as <-. simpl in He.
      rewrite (find_None_lookup d k0 i kv Hf Hi) in He. discriminate.
    + f_equal. eapply IH; eauto.
Qed.

Lemma well_formed_hashable (d : dict V) :
  well_formed d -> Forall (fun kv => hashable (fst kv) = true) d.
Proof.
  induction d as [|[k0 v0] d IH]; simpl; [constructor|].
  intros (Hk & _ & Hd). constructor; auto.
Qed.

End UniqueKeys.

Section UniqueRoutes.

Lemma merge_well_formed rs v :
  hashable (v_endpoint v) = true -> well_formed rs -> well_formed (merge rs v).
Proof.
  intros Hh Hwf. unfold merge.
  destruct (dict_find rs (v_endpoint v)); now apply dict_set_well_formed.
Qed.

Lemma iter_routes_well_formed n : forall st st',
  iter n st = Ok st' -> well_formed (routes st) -> well_formed (routes st').
Proof.
  intros st st' H Hwf. destruct (iter_routes _ _ _ H) as [-> Hh].
  revert Hwf Hh. generalize (routes st). induction (route_visits n st) as [|v vs IH];
    intros rs Hwf Hh; simpl; [exact Hwf|].
  inversion Hh; subst. apply IH; [|assumption]. now apply merge_well_formed.
Qed.

End UniqueRoutes.

(** X9.  The returned route table has one record per endpoint: every
    key is hashable, and no two positions hold keys that are equal in
    Python, so an endpoint that is reached along several paths, or is
    written once as [1] and once as [True], gets a single record. *)
Theorem route_table_one_record_per_endpoint
    (fuel : nat) (nm : dict node) (ch : adjacency) (rt : dict route) (g : global_flags) :
  traverse_graph fuel nm ch = Done (rt, g) ->
  Forall (fun kv => hashable (fst kv) = true) rt /\
  (forall i j kv kv',
      rt !! i = Some kv -> rt !! j = Some kv' ->
      key_eqb (fst kv) (fst kv') = true -> i = j).
Proof.
  intros Hrun.
  apply traverse_graph_inv in Hrun as (st0 & st & Hinit & Hiter & _ & <- & _).
  apply init_inv in Hinit as (_ & _ & Hr0 & _).
  assert (Hwf : well_formed (routes st)).
  { apply (iter_routes_well_formed fuel st0 st Hiter). now rewrite Hr0. }
  split; [now apply well_formed_hashable | now apply well_formed_unique].
Qed.

Lemma route_table_one_record_per_endpoint_witness :
  Forall (fun kv => hashable (fst kv) = true) shared_route_table /\
  (forall i j kv kv',
      shared_route_table !! i = Some kv -> shared_route_table !! j = Some kv' ->
      key_eqb (fst kv) (fst kv') = true -> i = j).
Proof.
  apply (route_table_one_record_per_endpoint 5 shared_node_map shared_children
           shared_route_table {| cors := false; logging := false |}).
  vm_compute. reflexivity.
Defined.

(** ** What [build_graph] accepts and returns *)

Section BuildGraphResult.

Lemma append_children_well_formed l : forall ch id,
  hashable id = true -> well_formed ch ->
  well_formed (fold_left (fun ch tid => append_child ch id tid) l ch).
Proof.
  induction l as [|t l IH]; intros ch id Hid Hwf; simpl; [exact Hwf|].
  apply IH; [exact Hid|]. unfold append_child. now apply dict_set_well_formed.
Qed.

Lemma build_node_inv acc nd acc' :
  build_node acc nd = Ok acc' ->
  well_keyed nd = true /\
  (well_formed (fst acc) -> well_formed (fst acc')) /\
  (well_formed (snd acc) -> well_formed (snd acc')).
Proof.
  destruct acc as [nm ch]. unfold build_node, node_id, well_keyed.
  destruct (sget nd "id") as [id|]; simpl; [|discriminate].
  destruct (hashable id) eqn:Hid; [|discriminate].
  intros [= <-]. simpl. split; [reflexivity|]. split; intros Hwf.
  - now apply dict_set_well_formed.
  - now apply append_children_well_formed.
Qed.

Lemma build_loop_inv nodes : forall acc acc',
  build_loop nodes acc = Ok acc' ->
  forallb well_keyed nodes = true /\
  (well_formed (fst acc) -> well_formed (fst acc')) /\
  (well_formed (snd acc) -> well_formed (snd acc')).
Proof.
  induction nodes as [|nd nodes IH]; intros acc acc' H; simpl in H.
  - injection H as <-. auto.
  - bind_case H acc1 E. destruct (build_node_inv _ _ _ E) as (Hk & Hn & Hc).
    destruct (IH _ _ H) as (Hks & Hn' & Hc'). simpl. rewrite Hk, Hks. auto.
Qed.

(** The first node without a hashable id ends the loop. *)
Lemma build_loop_first_bad good : forall acc bad rest,
  forallb well_keyed good = true -> well_keyed bad = false ->
  build_loop (good ++ bad :: rest) acc =
  Raise (match sget bad "id" with None => KeyError | Some _ => TypeError end).
Proof.
  induction good as [|nd good IH]; intros [nm ch] bad rest Hgood Hbad; simpl.
  - unfold build_node, node_id. unfold well_keyed in Hbad.
    destruct (sget bad "id") as [id|]; simpl; [|reflexivity]. now rewrite Hbad.
  - simpl in Hgood. apply andb_true_iff in Hgood as [Hnd Hgood].
    unfold build_node, node_id. unfold well_keyed in Hnd.
    destruct (sget nd "id") as [id|]; [|discriminate]. simpl. rewrite Hnd. simpl.
    now apply IH.
Qed.

End BuildGraphResult.

(** X10.  When [build_graph] returns, every node of the list had a
    hashable id, each of the two dictionaries binds every key once and
    only hashable keys, and every id that has an adjacency list also has
    a node in the index. *)
Theorem build_graph_result_well_formed
    (nodes : list node) (nm : dict node) (ch : adjacency) :
  build_graph nodes = Ok (nm, ch) ->
  forallb well_keyed nodes = true /\
  Forall (fun kv => hashable (fst kv) = true) nm /\
  Forall (fun kv => hashable (fst kv) = true) ch /\
  (forall i j kv kv',
      nm !! i = Some kv -> nm !! j = Some kv' ->
      key_eqb (fst kv) (fst kv') = true -> i = j) /\
  (forall i j kv kv',
      ch !! i = Some kv -> ch !! j = Some kv' ->
      key_eqb (fst kv) (fst kv') = true -> i = j) /\
  (forall k, is_Some (dict_find ch k) -> is_Some (dict_find nm k)).
Proof.
  intros H. unfold build_graph in H.
  destruct (build_loop_inv _ _ _ H) as (Hk & Hn & Hc). simpl in Hn, Hc.
  specialize (Hn I). specialize (Hc I).
  split; [exact Hk|].
  split; [now apply well_formed_hashable|]. split; [now apply well_formed_hashable|].
  split; [now apply well_formed_unique|]. split; [now apply well_formed_unique|].
  destruct (build_loop_spec nodes [] [] Hk) as (nm' & ch' & Hrun & Hnm & Hch).
  assert (Heq : Ok (nm', ch') = Ok (nm, ch)) by (rewrite <- Hrun; exact H).
  injection Heq as -> ->.
  intros k. rewrite Hch, Hnm. simpl.
  destruct (List.filter (has_id k) nodes) as [|nd l]; simpl.
  - intros [x Hx]. discriminate.
  - intros _. rewrite last_cons_cases. destruct (last l); eauto.
Qed.

Lemma build_graph_result_well_formed_witness :
  forallb well_keyed sample_nodes = true /\
  forall k,
    is_Some (dict_find [(PInt 1, [PInt 2; PInt 3; PInt 2; PInt 4]); (PInt 2, [PStr "x"])] k) ->
    is_Some (dict_find
               [(PInt 1, [("id", PInt 1); ("source", PInt 3); ("target", PInt 4)]);
                (PInt 2, [("id", PInt 2); ("source", PInt 1); ("target", PStr "x")]);
                (PInt 3, [("id", PInt 3); ("source", PInt 1)])] k).
Proof.
  destruct (build_graph_result_well_formed sample_nodes
              [(PInt 1, [("id", PInt 1); ("source", PInt 3); ("target", PInt 4)]);
               (PInt 2, [("id", PInt 2); ("source", PInt 1); ("target", PStr "x")]);
               (PInt 3, [("id", PInt 3); ("source", PInt 1)])]
              [(PInt 1, [PInt 2; PInt 3; PInt 2; PInt 4]); (PInt 2, [PStr "x"])])
    as (H1 & _ & _ & _ & _ & H2).
  - vm_compute. reflexivity.
  - split; [exact H1 | exact H2].
Defined.

(** X11.  [build_graph] stops at the first node that has no id or an
    id that is a list or an object: it raises [KeyError] for a missing id
    and [TypeError] for an unhashable one, whatever follows in the list,
    and returns no part of the graph. *)
Theorem build_graph_first_bad_node (good : list node) (bad : node) (rest : list node) :
  forallb well_keyed good = true ->
  well_keyed bad = false ->
  build_graph (good ++ bad :: rest) =
  Raise (match sget bad "id" with None => KeyError | Some _ => TypeError end).
Proof. intros Hgood Hbad. now apply build_loop_first_bad. Qed.

Lemma build_graph_first_bad_node_witness :
  build_graph (demo_nodes ++ [("id", PList [PInt 9]); ("target", PInt 1)]
                 :: [ [("name", PStr "no id")] ]) = Raise TypeError.
Proof.
  apply (build_graph_first_bad_node demo_nodes
           [("id", PList [PInt 9]); ("target", PInt 1)] [ [("name", PStr "no id")] ]).
  - vm_compute. reflexivity.
  - vm_compute. reflexivity.
Defined.

(** * The emitter: [generate_server_js] *)

Section Emitter.

(** Python's [str], which the f-strings apply to the endpoint and to the
    name of a route; all that is used of it is that it leaves a string as
    it is. *)
Variable py_str : pyval -> string.

(** A double quote and a line feed. *)
Definition dq : string := String "034" EmptyString.
Definition nl : string := String "010" EmptyString.

(** The pieces of a string literal or an f-string, put together. *)
Definition cat (pieces : list string) : string := String.concat "" pieces.

(** Lines 98-109: the prologue and the global middleware. *)
Definition prologue (g : global_flags) : list string :=
  [ "// Auto-generated server implementation";
    cat ["const express = require("; dq; "express"; dq; ");"] ]
  ++ (if cors g then [ cat ["const cors = require("; dq; "cors"; dq; ");"] ] else [])
  ++ [ "const app = express();"; "" ]
  ++ (if cors g then [ cat ["app.use(cors({ origin: "; dq; "*"; dq; " }));"] ] else [])
  ++ [ "app.use(express.json());"; "" ].

(** Lines 114-120 and 125-131: the two middleware definitions. *)
Definition auth_decl : string := "const authMiddleware = (req, res, next) => {".
Definition admin_decl : string := "const adminMiddleware = (req, res, next) => {".

Definition auth_block : list string :=
  [ auth_decl;
    "  if (!req.headers.authorization) {";
    cat ["    return res.status(401).json({ message: "; dq; "Unauthorized"; dq; " });"];
    "  }";
    "  next();";
    "};";
    "" ].

Definition admin_block : list string :=
  [ admin_decl;
    cat ["  if (req.headers.authorization !== "; dq; "admin"; dq; ") {"];
    cat ["    return res.status(403).json({ message: "; dq; "Forbidden"; dq; " });"];
    "  }";
    "  next();";
    "};";
    "" ].

(** Lines 112 and 123: [any(route["auth"] ...)] and
    [any(route["admin"] ...)]. *)
Definition any_auth (routes : dict route) : bool :=
  existsb (fun r => truthy (r_auth r)) (values routes).

Definition any_admin (routes : dict route) : bool :=
  existsb (fun r => truthy (r_admin r)) (values routes).

(** Lines 137-144: the middlewares of one route and their rendering. *)
Definition middlewares (info : route) : list string :=
  (if truthy (r_auth info) then ["authMiddleware"] else [])
  ++ (if truthy (r_admin info) then ["adminMiddleware"] else []).

Definition mws_str (info : route) : string :=
  match middlewares info with
  | [] => ""
  | ms => cat [String.concat ", " ms; ", "]
  end.

(** [endpoint == s] for a string literal [s]. *)
Definition endpoint_is (endpoint : pyval) (s : string) : bool :=
  match endpoint with
  | PStr e => String.eqb e s
  | _ => false
  end.

(** Lines 146-165: the response message. *)
Definition message (endpoint : pyval) (info : route) : string :=
  if endpoint_is endpoint "/login" then "Login successful"
  else if endpoint_is endpoint "/signup" then "Signup successful"
  else if endpoint_is endpoint "/signout" then "Signout successful"
  else if endpoint_is endpoint "/user" then "User data"
  else if endpoint_is endpoint "/admin" then "Admin data"
  else if endpoint_is endpoint "/home" then "Welcome to Home Page"
  else if endpoint_is endpoint "/about" then "About us"
  else if endpoint_is endpoint "/news" then "Latest news"
  else if endpoint_is endpoint "/blogs" then "Blogs list"
  else cat ["Response from "; py_str (name info)].

(** Line 166: the handler of one route. *)
Definition handler_line (endpoint : pyval) (info : route) : string :=
  cat [ "app."; method info; "("; dq; py_str endpoint; dq; ", ";
        mws_str info;
        "(req, res) => res.json({ message: "; dq; message endpoint info; dq; " }));" ].

Definition handlers (routes : dict route) : list string :=
  map (fun kv => handler_line (fst kv) (snd kv)) routes.

(** Lines 167-168. *)
Definition epilogue : list string :=
  [ "";
    cat ["app.listen(3000, () => console.log("; dq; "Server running on port 3000"; dq; "));"] ].

(** The list [lines] when the function reaches line 170. *)
Definition server_lines (routes : dict route) (g : global_flags) : list string :=
  prologue g
  ++ (if any_auth routes then auth_block else [])
  ++ (if any_admin routes then admin_block else [])
  ++ handlers routes
  ++ epilogue.

(** What the function does to the outside: the files it has written,
    latest first, and the lines it has printed. *)
Record output := { written : list (string * string); printed : list string }.

(** Lines 170-172: the file is opened for writing, so what it held is
    replaced, and a line is printed. *)
Definition generate_server_js (routes : dict route) (g : global_flags)
    (output_file : string) (out : output) : output :=
  {| written := (output_file, String.concat nl (server_lines routes g)) :: written out;
     printed := printed out ++ [cat ["Generated "; output_file; " successfully."]] |}.

(** The content of a file after the writes so far. *)
Fixpoint file_content (ws : list (string * string)) (path : string) : option string :=
  match ws with
  | [] => None
  | (p, text) :: ws' => if String.eqb p path then Some text else file_content ws' path
  end.

End Emitter.

(** A rendering that agrees with [str] on strings, which are all that
    the examples render. *)
Definition render_text (v : pyval) : string :=
  match v with
  | PStr s => s
  | _ => ""
  end.

Example demo_server_lines :
  server_lines render_text demo_route_table demo_globals =
  [ "// Auto-generated server implementation";
    cat ["const express = require("; dq; "express"; dq; ");"];
    cat ["const cors = require("; dq; "cors"; dq; ");"];
    "const app = express();";
    "";
    cat ["app.use(cors({ origin: "; dq; "*"; dq; " }));"];
    "app.use(express.json());";
    "";
    "const authMiddleware = (req, res, next) => {";
    "  if (!req.headers.authorization) {";
    cat ["    return res.status(401).json({ message: "; dq; "Unauthorized"; dq; " });"];
    "  }";
    "  next();";
    "};";
    "";
    cat ["app.get("; dq; "/user"; dq; ", authMiddleware, (req, res) => res.json({ message: ";
         dq; "User data"; dq; " }));"];
    cat ["app.get("; dq; "/home"; dq; ", (req, res) => res.json({ message: ";
         dq; "Welcome to Home Page"; dq; " }));"];
    cat ["app.post("; dq; "/news"; dq; ", authMiddleware, (req, res) => res.json({ message: ";
         dq; "Latest news"; dq; " }));"];
    cat ["app.post("; dq; "/login"; dq; ", (req, res) => res.json({ message: ";
         dq; "Login successful"; dq; " }));"];
    "";
    cat ["app.listen(3000, () => console.log("; dq; "Server running on port 3000"; dq; "));"] ].
Proof. vm_compute. reflexivity. Qed.

Section EmitterFacts.

Variable py_str : pyval -> string.

Lemma any_auth_In routes :
  any_auth routes = true <-> exists k r, In (k, r) routes /\ truthy (r_auth r) = true.
Proof.
  unfold any_auth, values. rewrite existsb_exists. split.
  - intros (r & Hin & Ht). apply in_map_iff in Hin as ([k r'] & <- & Hin). eauto.
  - intros (k & r & Hin & Ht). exists r. split; [|exact Ht].
    now apply (in_map snd routes (k, r)).
Qed.

Lemma any_admin_In routes :
  any_admin routes = true <-> exists k r, In (k, r) routes /\ truthy (r_admin r) = true.
Proof.
  unfold any_admin, values. rewrite existsb_exists. split.
  - intros (r & Hin & Ht). apply in_map_iff in Hin as ([k r'] & <- & Hin). eauto.
  - intros (k & r & Hin & Ht). exists r. split; [|exact Ht].
    now apply (in_map snd routes (k, r)).
Qed.

(** A handler line starts with [app.], so it is neither of the two
    middleware definitions. *)
Lemma handler_line_app k r :
  exists rest, handler_line py_str k r = String "a" (String "p" (String "p" (String "." rest))).
Proof. unfold handler_line, cat. simpl. eauto. Qed.

Lemma handlers_not_decl routes line :
  In line (handlers py_str routes) -> line <> auth_decl /\ line <> admin_decl.
Proof.
  unfold handlers. intros Hin. apply in_map_iff in Hin as ([k r] & <- & _). simpl.
  destruct (handler_line_app k r) as [rest ->]. split; discriminate.
Qed.

Lemma prologue_not_decl g line :
  In line (prologue g) -> line <> auth_decl /\ line <> admin_decl.
Proof.
  destruct g as [[] l]; vm_compute; intros H;
    repeat (destruct H as [<-|H]; [split; discriminate|]); destruct H.
Qed.

Lemma epilogue_not_decl line :
  In line epilogue -> line <> auth_decl /\ line <> admin_decl.
Proof.
  vm_compute; intros H;
    repeat (destruct H as [<-|H]; [split; discriminate|]); destruct H.
Qed.

Lemma auth_block_not_admin_decl : ~ In admin_decl auth_block.
Proof.
  vm_compute; intros H; repeat (destruct H as [H|H]; [discriminate H|]); destruct H.
Qed.

Lemma admin_block_not_auth_decl : ~ In auth_decl admin_block.
Proof.
  vm_compute; intros H; repeat (destruct H as [H|H]; [discriminate H|]); destruct H.
Qed.

Lemma auth_decl_emitted routes g :
  In auth_decl (server_lines py_str routes g) <-> any_auth routes = true.
Proof.
  unfold server_lines. rewrite !in_app_iff. split.
  - intros [H|[H|[H|[H|H]]]].
    + now destruct (prologue_not_decl g _ H) as [[] _].
    + destruct (any_auth routes); [reflexivity | destruct H].
    + destruct (any_admin routes); [|destruct H].
      now destruct (admin_block_not_auth_decl H).
    + now destruct (handlers_not_decl routes _ H) as [[] _].
    + now destruct (epilogue_not_decl _ H) as [[] _].
  - intros ->. right. left. now left.
Qed.

Lemma admin_decl_emitted routes g :
  In admin_decl (server_lines py_str routes g) <-> any_admin routes = true.
Proof.
  unfold server_lines. rewrite !in_app_iff. split.
  - intros [H|[H|[H|[H|H]]]].
    + now destruct (prologue_not_decl g _ H) as [_ []].
    + destruct (any_auth routes); [|destruct H].
      now destruct (auth_block_not_admin_decl H).
    + destruct (any_admin routes); [reflexivity | destruct H].
    + now destruct (handlers_not_decl routes _ H) as [_ []].
    + now destruct (epilogue_not_decl _ H) as [_ []].
  - intros ->. right. right. left. now left.
Qed.

Lemma middlewares_auth r :
  In "authMiddleware" (middlewares r) <-> truthy (r_auth r) = true.
Proof.
  unfold middlewares. destruct (truthy (r_auth r)), (truthy (r_admin r)); simpl;
    split; auto; try discriminate; intros H;
    repeat (destruct H as [H|H]; [discriminate H|]); destruct H.
Qed.

Lemma middlewares_admin r :
  In "adminMiddleware" (middlewares r) <-> truthy (r_admin r) = true.
Proof.
  unfold middlewares. destruct (truthy (r_auth r)), (truthy (r_admin r)); simpl;
    split; auto; try discriminate; intros H;
    repeat (destruct H as [H|H]; [discriminate H|]); destruct H.
Qed.

(** The lines that come before the handler of a route. *)
Lemma server_lines_split pre k r post g :
  server_lines py_str (pre ++ (k, r) :: post) g =
  (prologue g
   ++ (if any_auth (pre ++ (k, r) :: post) then auth_block else [])
   ++ (if any_admin (pre ++ (k, r) :: post) then admin_block else [])
   ++ handlers py_str pre)
  ++ handler_line py_str k r :: (handlers py_str post ++ epilogue).
Proof.
  unfold server_lines, handlers. rewrite map_app. simpl.
  now rewrite <- !app_assoc.
Qed.

End EmitterFacts.

(** X13.  The emitted lines define a middleware exactly when a route
    needs it: the definition of [authMiddleware] is among the lines if
    and only if some record of the route table has a truthy auth, and
    that of [adminMiddleware] if and only if some record has a truthy
    admin.  Every route has its handler among the lines, after the
    handlers of the routes before it in the table, and a handler that
    names a middleware comes after the definition of that middleware. *)
Theorem emitted_middleware_defined_when_used
    (py_str : pyval -> string) (routes : dict route) (g : global_flags) :
  (In auth_decl (server_lines py_str routes g) <->
   exists k r, In (k, r) routes /\ truthy (r_auth r) = true) /\
  (In admin_decl (server_lines py_str routes g) <->
   exists k r, In (k, r) routes /\ truthy (r_admin r) = true) /\
  (forall pre k r post,
      routes = pre ++ (k, r) :: post ->
      exists before,
        server_lines py_str routes g =
          before ++ handler_line py_str k r :: (handlers py_str post ++ epilogue) /\
        (forall k' r', In (k', r') pre -> In (handler_line py_str k' r') before) /\
        (In "authMiddleware" (middlewares r) -> In auth_decl before) /\
        (In "adminMiddleware" (middlewares r) -> In admin_decl before)).
Proof.
  split; [|split].
  - rewrite auth_decl_emitted. apply any_auth_In.
  - rewrite admin_decl_emitted. apply any_admin_In.
  - intros pre k r post ->. eexists. split; [apply server_lines_split|].
    split; [|split].
    + intros k' r' Hin. rewrite !in_app_iff. right. right. right.
      unfold handlers. now apply (in_map (fun kv => handler_line py_str (fst kv) (snd kv)) pre (k', r')).
    + intros Hm. apply middlewares_auth in Hm.
      assert (Ha : any_auth (pre ++ (k, r) :: post) = true).
      { apply any_auth_In. exists k, r. split; [|exact Hm].
        apply in_app_iff. right. now left. }
      rewrite Ha, !in_app_iff. right. left. now left.
    + intros Hm. apply middlewares_admin in Hm.
      assert (Ha : any_admin (pre ++ (k, r) :: post) = true).
      { apply any_admin_In. exists k, r. split; [|exact Hm].
        apply in_app_iff. right. now left. }
      rewrite Ha, !in_app_iff. right. right. left. now left.
Qed.

(** * From the node list to the server file *)

Section Pipeline.

Variable py_str : pyval -> string.

(** The two lines that bring in the CORS middleware. *)
Definition cors_require : string := cat ["const cors = require("; dq; "cors"; dq; ");"].
Definition cors_use : string := cat ["app.use(cors({ origin: "; dq; "*"; dq; " }));"].

(** Whether a character occurs in a string. *)
Fixpoint has_char (c : ascii) (s : string) : bool :=
  match s with
  | EmptyString => false
  | String c' s' => Ascii.eqb c' c || has_char c s'
  end.

Lemma has_char_append c s1 s2 :
  has_char c (String.append s1 s2) = has_char c s1 || has_char c s2.
Proof. induction s1 as [|c1 s1 IH]; simpl; [reflexivity|]. now rewrite IH, orb_assoc. Qed.

Lemma has_char_cat c pieces :
  has_char c (cat pieces) = existsb (has_char c) pieces.
Proof.
  unfold cat. induction pieces as [|x [|y pieces] IH].
  - reflexivity.
  - simpl. now rewrite orb_false_r.
  - change (String.concat "" (x :: y :: pieces))
      with (String.append x (String.append "" (String.concat "" (y :: pieces)))).
    rewrite !has_char_append, IH. reflexivity.
Qed.

(** A handler line has an arrow in it, which the line that installs the
    CORS middleware has not, although both start with [app.]. *)
Lemma handlers_not_cors routes line :
  In line (handlers py_str routes) -> line <> cors_require /\ line <> cors_use.
Proof.
  unfold handlers. intros Hin. apply in_map_iff in Hin as ([k r] & <- & _). simpl.
  split.
  - destruct (handler_line_app py_str k r) as [rest ->].
    intros H; vm_compute in H; discriminate H.
  - intros H. apply (f_equal (has_char ">")) in H.
    unfold handler_line in H. rewrite has_char_cat in H. simpl in H.
    rewrite !orb_true_r in H. vm_compute in H. discriminate H.
Qed.

Lemma fixed_blocks_not_cors line :
  In line (auth_block ++ admin_block ++ epilogue) ->
  line <> cors_require /\ line <> cors_use.
Proof.
  vm_compute; intros H;
    repeat (destruct H as [<-|H]; [split; discriminate|]); destruct H.
Qed.

Lemma prologue_cors g :
  (In cors_require (prologue g) <-> cors g = true) /\
  (In cors_use (prologue g) <-> cors g = true).
Proof.
  destruct g as [[] l]; vm_compute; split; split; intros H;
    try reflexivity; try discriminate H;
    try (repeat (destruct H as [H|H]; [discriminate H|]); now destruct H);
    repeat (first [left; reflexivity | right]).
Qed.

Lemma cors_lines_emitted routes g :
  (In cors_require (server_lines py_str routes g) <-> cors g = true) /\
  (In cors_use (server_lines py_str routes g) <-> cors g = true).
Proof.
  destruct (prologue_cors g) as [Hr Hu].
  assert (Hfix : forall line,
             In line (if any_auth routes then auth_block else []) \/
             In line (if any_admin routes then admin_block else []) \/
             In line epilogue ->
             line <> cors_require /\ line <> cors_use).
  { intros line H. apply fixed_blocks_not_cors. rewrite !in_app_iff.
    destruct H as [H|[H|H]].
    - destruct (any_auth routes); [now left | destruct H].
    - destruct (any_admin routes); [right; now left | destruct H].
    - right. now right. }
  unfold server_lines. rewrite !in_app_iff. split; split.
  - intros [H|[H|[H|[H|H]]]].
    + now apply Hr.
    + now destruct (Hfix _ (or_introl H)) as [[] _].
    + now destruct (Hfix _ (or_intror (or_introl H))) as [[] _].
    + now destruct (handlers_not_cors routes _ H) as [[] _].
    + now destruct (Hfix _ (or_intror (or_intror H))) as [[] _].
  - intros H. left. now apply Hr.
  - intros [H|[H|[H|[H|H]]]].
    + now apply Hu.
    + now destruct (Hfix _ (or_introl H)) as [_ []].
    + now destruct (Hfix _ (or_intror (or_introl H))) as [_ []].
    + now destruct (handlers_not_cors routes _ H) as [_ []].
    + now destruct (Hfix _ (or_intror (or_intror H))) as [_ []].
  - intros H. left. now apply Hu.
Qed.

(** [build_graph], [traverse_graph] and the lines of
    [generate_server_js], as [main] chains them. *)
Definition pipeline (fuel : nat) (nodes : list node) : outcome (list string) :=
  match build_and_traverse fuel nodes with
  | Done (rt, g) => Done (server_lines py_str rt g)
  | Failed e => Failed e
  | OutOfFuel => OutOfFuel
  end.

Lemma build_and_traverse_inv fuel nodes rt g :
  build_and_traverse fuel nodes = Done (rt, g) ->
  exists nm ch, build_graph nodes = Ok (nm, ch) /\ traverse_graph fuel nm ch = Done (rt, g).
Proof.
  unfold build_and_traverse. destruct (build_graph nodes) as [[nm ch]|]; [eauto | discriminate].
Qed.

Lemma completed_public_open fuel nm ch rt g :
  traverse_graph fuel nm ch = Done (rt, g) -> public_open rt.
Proof.
  intros Hrun.
  apply traverse_graph_inv in Hrun as (st0 & st & Hinit & Hiter & _ & <- & _).
  apply init_inv in Hinit as (_ & _ & Hr0 & _).
  apply (iter_public_open fuel st0 st Hiter). rewrite Hr0. intros k r [].
Qed.

End Pipeline.

(** X14.  From a node list to the emitted lines: whatever the graph
    requires on the paths to it, a route at [/login], [/signup] or
    [/signout] is emitted with no middleware between the endpoint and the
    handler, and with the fixed message of that endpoint. *)
Theorem public_routes_emitted_without_middleware
    (py_str : pyval -> string) (fuel : nat) (nodes : list node)
    (rt : dict route) (g : global_flags) (e : string) (r : route) :
  (forall s, py_str (PStr s) = s) ->
  build_and_traverse fuel nodes = Done (rt, g) ->
  In (PStr e, r) rt ->
  e = "/login" \/ e = "/signup" \/ e = "/signout" ->
  middlewares r = [] /\
  pipeline py_str fuel nodes = Done (server_lines py_str rt g) /\
  In (handler_line py_str (PStr e) r) (server_lines py_str rt g) /\
  handler_line py_str (PStr e) r =
    cat [ "app."; method r; "("; dq; e; dq; ", (req, res) => res.json({ message: "; dq;
          (if String.eqb e "/login" then "Login successful"
           else if String.eqb e "/signup" then "Signup successful"
           else "Signout successful");
          dq; " }));" ].
Proof.
  intros Hstr Hrun Hin He.
  destruct (build_and_traverse_inv _ _ _ _ Hrun) as (nm & ch & _ & Htr).
  assert (Hpub : is_public (PStr e) = true) by (destruct He as [->|[->| ->]]; reflexivity).
  destruct (completed_public_open _ _ _ _ _ Htr _ _ Hin Hpub) as [Ha Hb].
  assert (Hm : middlewares r = []) by (unfold middlewares; now rewrite Ha, Hb).
  split; [exact Hm|]. split; [unfold pipeline; now rewrite Hrun|]. split.
  - unfold server_lines, handlers. rewrite !in_app_iff. right. right. right. left.
    now apply (in_map (fun kv => handler_line py_str (fst kv) (snd kv)) rt (PStr e, r)).
  - unfold handler_line, mws_str, message. rewrite Hm, Hstr. simpl.
    destruct He as [->|[->| ->]]; reflexivity.
Qed.

Lemma public_routes_emitted_without_middleware_witness :
  handler_line render_text (PStr "/login")
    {| method := "post"; name := PStr "Login"; r_auth := PBool false; r_admin := PBool false |}
  = cat [ "app."; "post"; "("; dq; "/login"; dq; ", (req, res) => res.json({ message: "; dq;
          "Login successful"; dq; " }));" ].
Proof.
  apply (public_routes_emitted_without_middleware render_text 7 demo_nodes
           demo_route_table demo_globals "/login").
  - reflexivity.
  - vm_compute. reflexivity.
  - right. right. right. left. reflexivity.
  - left. reflexivity.
Defined.

(** X15.  From a node list to the emitted lines: the two lines that
    bring in the CORS middleware are emitted exactly when a node that can
    be reached from an entry node has the key [allowed_origins]; the
    logging flag changes no line, so [log_requests] has no effect on the
    server. *)
Theorem cors_emitted_when_reachable
    (py_str : pyval -> string) (fuel : nat) (nodes : list node)
    (nm : dict node) (ch : adjacency) (rt : dict route) (g : global_flags) :
  build_graph nodes = Ok (nm, ch) ->
  build_and_traverse fuel nodes = Done (rt, g) ->
  (In cors_require (server_lines py_str rt g) <->
   exists p c props,
     walk nm ch p c /\ props_at nm c = Some props /\
     has_key props "allowed_origins" = true) /\
  (In cors_use (server_lines py_str rt g) <-> In cors_require (server_lines py_str rt g)) /\
  (forall l, server_lines py_str rt {| cors := cors g; logging := l |}
             = server_lines py_str rt g).
Proof.
  intros Hb Hrun. unfold build_and_traverse in Hrun. rewrite Hb in Hrun.
  destruct (cors_lines_emitted py_str rt g) as [Hr Hu].
  destruct (completed_globals fuel nm ch rt g Hrun) as [Hc _].
  split; [now rewrite Hr, Hc|]. split; [now rewrite Hr, Hu|].
  intros l. now destruct g.
Qed.

Lemma cors_emitted_when_reachable_witness :
  In cors_require (server_lines render_text demo_route_table demo_globals) <->
  exists p c props,
    walk demo_node_map demo_children p c /\ props_at demo_node_map c = Some props /\
    has_key props "allowed_origins" = true.
Proof.
  apply (cors_emitted_when_reachable render_text 7 demo_nodes
           demo_node_map demo_children demo_route_table demo_globals).
  - vm_compute. reflexivity.
  - vm_compute. reflexivity.
Defined.

(** * [main] *)

Section Main.

Variable py_str : pyval -> string.

(** The outside of [main]: the value [json.load] decodes from
    [./config.json], or none when the file does not exist, and the output
    so far.  A file that does not hold JSON is outside the model. *)
Record world := { config : option pyval; out : output }.

(** [print(line)] *)
Definition print (line : string) (w : world) : world :=
  {| config := config w;
     out := {| written := written (out w); printed := printed (out w) ++ [line] |} |}.

(** The loop of [build_graph] on a list of arbitrary values: subscripting
    an element that is not an object with ["id"] raises [TypeError]. *)
Fixpoint build_loop_values (vs : list pyval) (acc : dict node * adjacency)
  : result (dict node * adjacency) :=
  match vs with
  | [] => Ok acc
  | PDict nd :: rest => let* acc' := build_node acc nd in build_loop_values rest acc'
  | _ :: _ => Raise TypeError
  end.

(** [build_graph(nodes)] on an arbitrary value: a string yields its
    characters and an object its keys, which are strings; [None], a
    boolean or a number cannot be iterated. *)
Definition build_graph_value (nodes : pyval) : result (dict node * adjacency) :=
  match nodes with
  | PList vs => build_loop_values vs ([], [])
  | PStr s => if String.eqb s "" then Ok ([], []) else Raise TypeError
  | PDict d => match d with [] => Ok ([], []) | _ => Raise TypeError end
  | _ => Raise TypeError
  end.

(** Lines 174-188. *)
Definition main (fuel : nat) (w : world) : outcome world :=
  match config w with
  | None => Done (print "Error: ./config.json does not exist." w)
  | Some (PDict d) =>
      let nodes := default (PList []) (sget d "nodes") in
      if truthy nodes then
        match build_graph_value nodes with
        | Raise e => Failed e
        | Ok (nm, ch) =>
            match traverse_graph fuel nm ch with
            | Done (rt, g) =>
                Done {| config := config w;
                        out := generate_server_js py_str rt g "./server.js" (out w) |}
            | Failed e => Failed e
            | OutOfFuel => OutOfFuel
            end
        end
      else Done (print "No nodes found in the configuration." w)
  | Some _ => Failed AttributeError
  end.

Lemma build_loop_values_objects nodes : forall acc,
  build_loop_values (map PDict nodes) acc = build_loop nodes acc.
Proof.
  induction nodes as [|nd nodes IH]; intros acc; simpl; [reflexivity|].
  destruct (build_node acc nd); simpl; [apply IH | reflexivity].
Qed.

End Main.

(** X16.  The early exits of [main].  Without a configuration file it
    prints one line and writes nothing.  With a configuration that is not
    an object it raises [AttributeError].  With [nodes] absent, null,
    empty, zero or false it prints one line and writes nothing, without
    calling the graph builder.  With [nodes] a non-empty string or
    object, a number or [True], it raises [TypeError], and so it does
    when an element of the list before any faulty node is not an
    object. *)
Theorem main_early_exits (py_str : pyval -> string) (fuel : nat) (w : world) :
  (config w = None ->
   main py_str fuel w = Done (print "Error: ./config.json does not exist." w)) /\
  (forall v, config w = Some v -> (forall d, v <> PDict d) ->
             main py_str fuel w = Failed AttributeError) /\
  (forall d, config w = Some (PDict d) ->
             truthy (default (PList []) (sget d "nodes")) = false ->
             main py_str fuel w = Done (print "No nodes found in the configuration." w)) /\
  (forall d nodes, config w = Some (PDict d) -> sget d "nodes" = Some nodes ->
                   truthy nodes = true -> (forall vs, nodes <> PList vs) ->
                   main py_str fuel w = Failed TypeError) /\
  (forall d good v rest,
      config w = Some (PDict d) ->
      sget d "nodes" = Some (PList (map PDict good ++ v :: rest)) ->
      forallb well_keyed good = true -> (forall nd, v <> PDict nd) ->
      main py_str fuel w = Failed TypeError).
Proof.
  unfold main. split; [now intros ->|]. split; [|split; [|split]].
  - intros v -> Hv. destruct v; try reflexivity. now destruct (Hv d).
  - intros d -> Hn. now rewrite Hn.
  - intros d nodes -> -> Ht Hl. simpl. rewrite Ht.
    destruct nodes as [| | |s|l|d']; simpl in *; try discriminate; try reflexivity.
    + now destruct (String.eqb s "").
    + now destruct (Hl l).
    + now destruct d'.
  - intros d good v rest -> -> Hgood Hv. cbn [from_option id].
    assert (Ht : truthy (PList (map PDict good ++ v :: rest)) = true)
      by (simpl; now destruct (map PDict good)).
    rewrite Ht. cbn [build_graph_value].
    assert (Hloop : forall acc,
               build_loop_values (map PDict good ++ v :: rest) acc = Raise TypeError).
    { clear Ht. induction good as [|nd good IH]; intros acc; simpl.
      - destruct v; try reflexivity. now destruct (Hv d0).
      - simpl in Hgood. apply andb_true_iff in Hgood as [Hnd Hgood].
        destruct acc as [nm ch]. unfold build_node, node_id. unfold well_keyed in Hnd.
        destruct (sget nd "id") as [id|]; [|discriminate]. simpl. rewrite Hnd. simpl.
        now apply IH. }
    now rewrite Hloop.
Qed.


Definition demo_world : world :=
  {| config := Some (PDict [("nodes", PList (map PDict demo_nodes))]);
     out := {| written := [("./server.js", "stale")]; printed := [] |} |}.

